(** * ROA symmetric rendezvous simulator (roa_rendezvous_v31.py)

    A shallow embedding of the simulator and the proofs of its specified
    properties.

    Numbers.  The properties are proved over an idealisation: Python floats
    are the real numbers [R] of the Standard Library, [abs], [min], [max],
    [np.sin], [np.cos] become [Rabs], [Rmin], [Rmax], [sin], [cos], and
    every comparison of the source is a decision on [R].  A division whose
    divisor is zero has no value in [R] (NumPy answers nan and a
    RuntimeWarning, and goes on); the model stops there with [ZeroDivide].
    [1.0 * (2 ** self.cycle)] raises Python's OverflowError once the integer
    no longer fits a float, from cycle 1024 on; that is [OverflowError].

    Binary64.  The idealisation follows the code only while binary64
    resolves one unit at the magnitude of the positions.  The module [F64]
    embeds the same functions over the primitive binary64 floats, where nan
    is a value and every operation rounds; it computes, and shows what the
    code does where the idealisation stops (a separation of [1e16], a call
    made on the target).  The theorems over [R] that depend on the
    separation are stated for separations of magnitude at most [2 ^ 32].

    Randomness.  [np.random.choice([1, -1])] reads the generator's global
    state.  The sequence of draws that a seeded generator produces is made
    explicit as a function [nat -> Direction], and the number of draws
    consumed so far is threaded through the code.

    Loops.  The [while] loop of a trial is a fuelled recursion; running out
    of fuel is the separate outcome [OutOfFuel], and [trial_fuel] is shown
    to be enough for every trial. *)

From Stdlib Require Import PrimFloat.
From Stdlib Require Import Reals Lra Lia List Arith.
Import ListNotations.

Open Scope R_scope.

(** ** Outcomes of fallible code *)

Inductive result (A : Type) : Type :=
| Ok (a : A)
| ZeroDivide
| OverflowError
| OutOfFuel.

Arguments Ok {A} a.
Arguments ZeroDivide {A}.
Arguments OverflowError {A}.
Arguments OutOfFuel {A}.

Definition bind {A B : Type} (m : result A) (f : A -> result B) : result B :=
  match m with
  | Ok a => f a
  | ZeroDivide => ZeroDivide
  | OverflowError => OverflowError
  | OutOfFuel => OutOfFuel
  end.

Notation "x <- m ;; k" := (bind m (fun x => k))
  (at level 61, m at next level, right associativity).
Notation "' pat <- m ;; k" := (bind m (fun x => match x with pat => k end))
  (at level 61, pat pattern, m at next level, right associativity).

(** [a / b] of the source, for a divisor that the source does not guard. *)
Definition checked_div (a b : R) : result R :=
  if Req_dec_T b 0 then ZeroDivide else Ok (a / b).

(** ** The phase-intensity kernel *)

Definition gamma : R := 1.61803398875.

Definition get_roa_phase_intensity (t cycle_idx : R) : R :=
  let wave := sin (t * gamma + cycle_idx) + 0.5 * cos (t * cycle_idx / gamma) in
  Rabs wave.

(** ** The interaction solver

    [None] is Python's [None]: no meeting on this leg. *)

(** [field_strength] of the solver's body: the two intensities, added
    and biased. *)
Definition field_strength (t_now idxA idxB : R) : R :=
  let intensity_A := get_roa_phase_intensity t_now idxA in
  let intensity_B := get_roa_phase_intensity t_now idxB in
  (intensity_A + intensity_B) / 2.0 + 0.5.

(** [effective_radius] of the solver's body. *)
Definition effective_radius (t_now idxA idxB current_radius : R) : R :=
  current_radius * field_strength t_now idxA idxB * 2.5.

Definition solve_roa_phase_locked_physics
    (t_now duration pA vA pB vB idxA idxB current_radius : R) : option R :=
  let rel_pos := Rabs (pA - pB) in
  if Rlt_dec rel_pos 1e-4 then Some 0.0
  else
    if Rlt_dec rel_pos (effective_radius t_now idxA idxB current_radius)
    then Some 0.001
    else
      let rel_vel := vA - vB in
      if Rgt_dec (Rabs rel_vel) 1e-9 then
        let dt := - (pA - pB) / rel_vel in
        if Rle_dec 0 dt then
          if Rle_dec dt duration then Some dt else None
        else None
      else None.

(** ** The agent *)

Inductive Direction : Type := Plus | Minus.

(** The value drawn by [np.random.choice([1, -1])]. *)
Definition dir_val (d : Direction) : R :=
  match d with Plus => 1 | Minus => -1 end.

Record ROAPhaseAgent : Type := mkAgent {
  origin : R;
  pos : R;
  cycle : nat;
  target : R;
  duration : R;
  velocity : R;
  timer : R;
  current_search_radius : R
}.

(** [engage_phase_drive], with the direction it draws given as [d].  Its
    first line converts the integer [2 ** self.cycle] to a float, which
    raises OverflowError from cycle 1024 on, before any field is set. *)
Definition engage_phase_drive (d : Direction) (self : ROAPhaseAgent)
  : result ROAPhaseAgent :=
  if (1024 <=? cycle self)%nat then OverflowError else
  let radius := 1.0 * 2 ^ cycle self in
  let speed := 1.0 in
  let tgt := origin self + dir_val d * radius in
  let dist := Rabs (tgt - pos self) in
  let dur := dist / speed in
  vel <- checked_div (tgt - pos self) dur ;;
  Ok {| origin := origin self;
        pos := pos self;
        cycle := S (cycle self);
        target := tgt;
        duration := dur;
        velocity := vel;
        timer := 0;
        current_search_radius := radius |}.

(** The fields as [__init__] sets them before it plans the first leg. *)
Definition blank_agent (start_pos : R) : ROAPhaseAgent :=
  {| origin := start_pos;
     pos := start_pos;
     cycle := 0;
     target := 0;
     duration := 0;
     velocity := 0;
     timer := 0;
     current_search_radius := 0 |}.

(** [ROAPhaseAgent(start_pos)]. *)
Definition new_agent (d : Direction) (start_pos : R) : result ROAPhaseAgent :=
  engage_phase_drive d (blank_agent start_pos).

(** ** The driver *)

(** The "Update Position" lines of the loop, for one agent. *)
Definition advance (a : ROAPhaseAgent) (dt : R) : ROAPhaseAgent :=
  {| origin := origin a;
     pos := pos a + velocity a * dt;
     cycle := cycle a;
     target := target a;
     duration := duration a;
     velocity := velocity a;
     timer := timer a + dt;
     current_search_radius := current_search_radius a |}.

(** The test that guards the "Next Leg" calls. *)
Definition leg_done (a : ROAPhaseAgent) : Prop :=
  Rabs (duration a - timer a) < 1e-9.

Definition leg_done_dec (a : ROAPhaseAgent) : {leg_done a} + {~ leg_done a} :=
  Rlt_dec (Rabs (duration a - timer a)) 1e-9.

(** One "Next Leg" line: [rng] is the sequence of draws, [k] the number of
    draws already made. *)
Definition next_leg (rng : nat -> Direction) (a : ROAPhaseAgent) (k : nat)
  : result (ROAPhaseAgent * nat) :=
  if leg_done_dec a then
    a' <- engage_phase_drive (rng k) a ;; Ok (a', S k)
  else Ok (a, k).

Record TrialState : Type := mkTrial {
  global_t : R;
  agent_A : ROAPhaseAgent;
  agent_B : ROAPhaseAgent;
  draws : nat
}.

(** The step [min(rem_A, rem_B)] of an iteration. *)
Definition step_dt (st : TrialState) : R :=
  let rem_A := duration (agent_A st) - timer (agent_A st) in
  let rem_B := duration (agent_B st) - timer (agent_B st) in
  Rmin rem_A rem_B.

(** The solver call of an iteration. *)
Definition physics_check (st : TrialState) : option R :=
  solve_roa_phase_locked_physics
    (global_t st) (step_dt st)
    (pos (agent_A st)) (velocity (agent_A st))
    (pos (agent_B st)) (velocity (agent_B st))
    (INR (cycle (agent_A st))) (INR (cycle (agent_B st)))
    (Rmax (current_search_radius (agent_A st))
          (current_search_radius (agent_B st))).

(** The rest of an iteration once the solver has answered [None]. *)
Definition update_state (rng : nat -> Direction) (st : TrialState)
  : result TrialState :=
  let dt := step_dt st in
  let t' := global_t st + dt in
  let a1 := advance (agent_A st) dt in
  let b1 := advance (agent_B st) dt in
  '(a2, k1) <- next_leg rng a1 (draws st) ;;
  '(b2, k2) <- next_leg rng b1 k1 ;;
  Ok {| global_t := t'; agent_A := a2; agent_B := b2; draws := k2 |}.

(** How the [while] loop of a trial ends: by [break] with a meeting time
    appended ([met = True]), or with its condition false ([met = False]). *)
Inductive LoopExit : Type :=
| Met (meeting_time : R)
| Horizon (final_t : R).

Fixpoint trial_loop (fuel : nat) (rng : nat -> Direction) (st : TrialState)
  : result (LoopExit * nat) :=
  if Rlt_dec (global_t st) 1000.0 then
    match fuel with
    | O => OutOfFuel
    | S fuel' =>
        match physics_check st with
        | Some hit => Ok (Met (global_t st + hit), draws st)
        | None => st' <- update_state rng st ;; trial_loop fuel' rng st'
        end
    end
  else Ok (Horizon (global_t st), draws st).

(** The two constructor calls and [global_t = 0.0] that open a trial. *)
Definition start_trial (rng : nat -> Direction) (k : nat) (dist : R)
  : result TrialState :=
  a <- new_agent (rng k) 0.0 ;;
  b <- new_agent (rng (S k)) dist ;;
  Ok {| global_t := 0.0; agent_A := a; agent_B := b; draws := S (S k) |}.

(** The value a trial appends to [meeting_times]. *)
Definition recorded (e : LoopExit) : R :=
  match e with
  | Met meeting_time => meeting_time
  | Horizon final_t => final_t
  end.

Definition run_trial (fuel : nat) (rng : nat -> Direction) (k : nat) (dist : R)
  : result (LoopExit * nat) :=
  st <- start_trial rng k dist ;; trial_loop fuel rng st.

(** The [for] loop over the trials; the list is [meeting_times]. *)
Fixpoint run_trials (fuel : nat) (rng : nat -> Direction) (k : nat)
    (trials : nat) (dist : R) : result (list R) :=
  match trials with
  | O => Ok []
  | S n =>
      '(e, k') <- run_trial fuel rng k dist ;;
      rest <- run_trials fuel rng k' n dist ;;
      Ok (recorded e :: rest)
  end.

Definition sum_list (l : list R) : R := fold_left Rplus l 0.

(** [np.mean]: the mean of an empty list is a division by zero. *)
Definition mean (l : list R) : result R :=
  checked_div (sum_list l) (INR (length l)).

Definition simulate_v31_final_completion
    (fuel : nat) (rng : nat -> Direction) (trials : nat) (dist : R) : result R :=
  meeting_times <- run_trials fuel rng 0 trials dist ;;
  mean meeting_times.

(** Fuel that is enough for every trial. *)
Definition trial_fuel : nat := 4002.

(** ** The same code over binary64

    The agent, the solver and one iteration of the loop, with Python's
    floats as the primitive binary64 floats: every operation rounds, nan
    and the infinities are values, and a comparison with nan is false.
    [np.sin] and [np.cos] are library code; they are taken as the
    parameter [Libm]. *)

Module F64.

#[local] Set Warnings "-inexact-float".
#[local] Open Scope float_scope.

Record ROAPhaseAgent : Type := mkAgent {
  origin : float;
  pos : float;
  cycle : nat;
  target : float;
  duration : float;
  velocity : float;
  timer : float;
  current_search_radius : float
}.

(** The float of the integer [2 ** c], for [c < 1024]. *)
Fixpoint pow2 (c : nat) : float :=
  match c with
  | O => 1
  | S c' => 2 * pow2 c'
  end.

(** The float of a small non-negative integer. *)
Fixpoint of_nat (n : nat) : float :=
  match n with
  | O => 0
  | S n' => of_nat n' + 1
  end.

Definition dir_val (d : Direction) : float :=
  match d with Plus => 1 | Minus => -1 end.

Definition engage_phase_drive (d : Direction) (self : ROAPhaseAgent)
  : result ROAPhaseAgent :=
  if (1024 <=? cycle self)%nat then OverflowError else
  let radius := 1.0 * pow2 (cycle self) in
  let speed := 1.0 in
  let tgt := origin self + dir_val d * radius in
  let dist := abs (tgt - pos self) in
  let dur := dist / speed in
  let vel := (tgt - pos self) / dur in
  Ok {| origin := origin self;
        pos := pos self;
        cycle := S (cycle self);
        target := tgt;
        duration := dur;
        velocity := vel;
        timer := 0;
        current_search_radius := radius |}.

Definition blank_agent (start_pos : float) : ROAPhaseAgent :=
  {| origin := start_pos;
     pos := start_pos;
     cycle := 0;
     target := 0;
     duration := 0;
     velocity := 0;
     timer := 0;
     current_search_radius := 0 |}.

Definition new_agent (d : Direction) (start_pos : float)
  : result ROAPhaseAgent :=
  engage_phase_drive d (blank_agent start_pos).

Definition advance (a : ROAPhaseAgent) (dt : float) : ROAPhaseAgent :=
  {| origin := origin a;
     pos := pos a + velocity a * dt;
     cycle := cycle a;
     target := target a;
     duration := duration a;
     velocity := velocity a;
     timer := timer a + dt;
     current_search_radius := current_search_radius a |}.

(** The test [abs(duration - timer) < 1e-9] of the "Next Leg" lines. *)
Definition leg_done (a : ROAPhaseAgent) : bool :=
  abs (duration a - timer a) <? 1e-9.

(** Python's [min] and [max] of two floats: the second argument when it is
    smaller (greater), else the first. *)
Definition py_min (a b : float) : float := if b <? a then b else a.
Definition py_max (a b : float) : float := if a <? b then b else a.

Record Libm : Type := mkLibm {
  np_sin : float -> float;
  np_cos : float -> float
}.

Definition gamma : float := 1.61803398875.

Definition get_roa_phase_intensity (m : Libm) (t : float) (cycle_idx : nat)
  : float :=
  let wave := np_sin m (t * gamma + of_nat cycle_idx)
              + 0.5 * np_cos m (t * of_nat cycle_idx / gamma) in
  abs wave.

Definition solve_roa_phase_locked_physics (m : Libm)
    (t_now duration pA vA pB vB : float) (idxA idxB : nat)
    (current_radius : float) : option float :=
  let rel_pos := abs (pA - pB) in
  if rel_pos <? 1e-4 then Some 0.0
  else
    let intensity_A := get_roa_phase_intensity m t_now idxA in
    let intensity_B := get_roa_phase_intensity m t_now idxB in
    let field_strength := (intensity_A + intensity_B) / 2.0 + 0.5 in
    let effective_radius := current_radius * field_strength * 2.5 in
    if rel_pos <? effective_radius then Some 0.001
    else
      let rel_vel := vA - vB in
      if 1e-9 <? abs rel_vel then
        let dt := - (pA - pB) / rel_vel in
        if andb (0 <=? dt) (dt <=? duration) then Some dt else None
      else None.

Record TrialState : Type := mkTrial {
  global_t : float;
  agent_A : ROAPhaseAgent;
  agent_B : ROAPhaseAgent
}.

Definition step_dt (st : TrialState) : float :=
  let rem_A := duration (agent_A st) - timer (agent_A st) in
  let rem_B := duration (agent_B st) - timer (agent_B st) in
  py_min rem_A rem_B.

Definition physics_check (m : Libm) (st : TrialState) : option float :=
  solve_roa_phase_locked_physics m
    (global_t st) (step_dt st)
    (pos (agent_A st)) (velocity (agent_A st))
    (pos (agent_B st)) (velocity (agent_B st))
    (cycle (agent_A st)) (cycle (agent_B st))
    (py_max (current_search_radius (agent_A st))
            (current_search_radius (agent_B st))).

(** One "Next Leg" line, with the direction it would draw. *)
Definition next_leg (d : Direction) (a : ROAPhaseAgent)
  : result ROAPhaseAgent :=
  if leg_done a then engage_phase_drive d a else Ok a.

(** The rest of an iteration once the solver has answered [None]; [dA] and
    [dB] are the directions that the two "Next Leg" lines draw if they
    plan. *)
Definition update_state (dA dB : Direction) (st : TrialState)
  : result TrialState :=
  let dt := step_dt st in
  a2 <- next_leg dA (advance (agent_A st) dt) ;;
  b2 <- next_leg dB (advance (agent_B st) dt) ;;
  Ok {| global_t := global_t st + dt; agent_A := a2; agent_B := b2 |}.

(** The two constructor calls and [global_t = 0.0] that open a trial. *)
Definition start_trial (dA dB : Direction) (dist : float)
  : result TrialState :=
  a <- new_agent dA 0.0 ;;
  b <- new_agent dB dist ;;
  Ok {| global_t := 0.0; agent_A := a; agent_B := b |}.

(** A trial up to the end of its first iteration: [None] when the loop is
    left before (a meeting, or the horizon), else the state in which the
    [while] condition is evaluated next.  [dA'] and [dB'] are the draws of
    the "Next Leg" lines. *)
Definition first_iteration (m : Libm) (dA dB dA' dB' : Direction)
    (dist : float) : result (option TrialState) :=
  st <- start_trial dA dB dist ;;
  if global_t st <? 1000.0 then
    match physics_check m st with
    | Some _ => Ok None
    | None => st' <- update_state dA' dB' st ;; Ok (Some st')
    end
  else Ok None.

(** The two values that the first solver call of a trial reads from the
    library: both agents are at cycle 1 and the time is [0.0], so the
    kernel asks for [np.sin(1.0)] and [np.cos(0.0)]. *)
Definition libm_at_start : Libm :=
  {| np_sin := fun x => if x =? 1 then 0.8414709848078965 else nan;
     np_cos := fun x => if x =? 0 then 1 else nan |}.

End F64.

(** ** Vocabulary of the statements *)

(** The target that [engage_phase_drive] computes from [self] and the
    draw [d]. *)
Definition planned_target (d : Direction) (self : ROAPhaseAgent) : R :=
  origin self + dir_val d * (1.0 * 2 ^ cycle self).

(** The agent that a successful call leaves behind. *)
Definition engaged (d : Direction) (self : ROAPhaseAgent) : ROAPhaseAgent :=
  {| origin := origin self;
     pos := pos self;
     cycle := S (cycle self);
     target := planned_target d self;
     duration := Rabs (planned_target d self - pos self) / 1.0;
     velocity := (planned_target d self - pos self)
                 / (Rabs (planned_target d self - pos self) / 1.0);
     timer := 0;
     current_search_radius := 1.0 * 2 ^ cycle self |}.

(** What holds of an agent between two planning events: it is on leg
    number [cycle - 1], heading at unit speed for a target that lies
    [duration - timer] ahead. *)
Record on_leg (a : ROAPhaseAgent) : Prop := mkOnLeg {
  leg_cycle : (1 <= cycle a)%nat;
  leg_target : exists d, target a = origin a + dir_val d * 2 ^ (cycle a - 1);
  leg_radius : current_search_radius a = 2 ^ (cycle a - 1);
  leg_speed : Rabs (velocity a) = 1;
  leg_ahead : target a - pos a = velocity a * (duration a - timer a);
  leg_timer : 0 <= timer a <= duration a;
  leg_length : 1 - 1e-9 <= duration a
}.

(** An agent and the number of [engage_phase_drive] calls made on it since
    its construction at [p], whatever happened to it in between.  A call
    that divides [0.0] by [0.0] goes on in the code: it sets every field as
    [engaged] does, and the velocity is nan, for which the real field of
    the record has no value. *)
Inductive after_calls (p : R) : nat -> ROAPhaseAgent -> Prop :=
| calls_new d a :
    new_agent d p = Ok a -> after_calls p 0 a
| calls_moved n a dt :
    after_calls p n a -> after_calls p n (advance a dt)
| calls_engaged n a d a' :
    after_calls p n a -> engage_phase_drive d a = Ok a' ->
    after_calls p (S n) a'
| calls_engaged_nan n a d :
    after_calls p n a -> engage_phase_drive d a = ZeroDivide ->
    after_calls p (S n) (engaged d a).

(** [ds] calls of [engage_phase_drive] in a row, with these draws. *)
Fixpoint replan (ds : list Direction) (a : ROAPhaseAgent) : result ROAPhaseAgent :=
  match ds with
  | [] => Ok a
  | d :: ds' => a' <- engage_phase_drive d a ;; replan ds' a'
  end.

(** What a "Next Leg" line leaves behind when its call succeeds. *)
Definition replanned (rng : nat -> Direction) (a : ROAPhaseAgent) (k : nat)
  : ROAPhaseAgent * nat :=
  if leg_done_dec a then (engaged (rng k) a, S k) else (a, k).

(** The state after an iteration in which no call failed. *)
Definition updated (rng : nat -> Direction) (st : TrialState) : TrialState :=
  let dt := step_dt st in
  let ak := replanned rng (advance (agent_A st) dt) (draws st) in
  let bk := replanned rng (advance (agent_B st) dt) (snd ak) in
  {| global_t := global_t st + dt;
     agent_A := fst ak;
     agent_B := fst bk;
     draws := snd bk |}.

(** The state in which a trial enters its loop. *)
Definition started (rng : nat -> Direction) (k : nat) (dist : R) : TrialState :=
  {| global_t := 0.0;
     agent_A := engaged (rng k) (blank_agent 0.0);
     agent_B := engaged (rng (S k)) (blank_agent dist);
     draws := S (S k) |}.

(** The states in which a trial evaluates its [while] condition. *)
Inductive trial_reach (rng : nat -> Direction) (dist : R) : TrialState -> Prop :=
| trial_started k st :
    start_trial rng k dist = Ok st -> trial_reach rng dist st
| trial_iterated st st' :
    trial_reach rng dist st ->
    global_t st < 1000.0 ->
    physics_check st = None ->
    update_state rng st = Ok st' ->
    trial_reach rng dist st'.

(** The agent states on which a trial calls [engage_phase_drive]: the two
    constructor calls, and the "Next Leg" calls after an advance. *)
Inductive plan_site (rng : nat -> Direction) (dist : R) : ROAPhaseAgent -> Prop :=
| site_new_A : plan_site rng dist (blank_agent 0.0)
| site_new_B : plan_site rng dist (blank_agent dist)
| site_next_A st :
    trial_reach rng dist st -> global_t st < 1000.0 ->
    physics_check st = None ->
    leg_done (advance (agent_A st) (step_dt st)) ->
    plan_site rng dist (advance (agent_A st) (step_dt st))
| site_next_B st :
    trial_reach rng dist st -> global_t st < 1000.0 ->
    physics_check st = None ->
    leg_done (advance (agent_B st) (step_dt st)) ->
    plan_site rng dist (advance (agent_B st) (step_dt st)).

(** What the driver maintains at every evaluation of the [while]
    condition. *)
Record trial_inv (st : TrialState) : Prop := mkTrialInv {
  inv_A : on_leg (agent_A st);
  inv_B : on_leg (agent_B st);
  inv_A_running : timer (agent_A st) + 1e-9 <= duration (agent_A st);
  inv_B_running : timer (agent_B st) + 1e-9 <= duration (agent_B st);
  inv_A_clock :
    (INR (cycle (agent_A st)) - 1) * (1 - 2e-9)
    <= global_t st - timer (agent_A st);
  inv_B_clock :
    (INR (cycle (agent_B st)) - 1) * (1 - 2e-9)
    <= global_t st - timer (agent_B st)
}.

(** No agent is at a cycle whose radius would overflow. *)
Definition cycles_low (st : TrialState) : Prop :=
  (cycle (agent_A st) < 1024)%nat /\ (cycle (agent_B st) < 1024)%nat.

(** The generator that always draws [1]. *)
Definition always_plus : nat -> Direction := fun _ => Plus.

(** The generator that draws [-1] twenty times and [1] from then on. *)
Definition minus_then_plus : nat -> Direction :=
  fun k => if (k <? 20)%nat then Minus else Plus.

(** An agent that has just planned leg [c] towards the side [s] of its
    origin [o], from the place [x] away from [o]. *)
Definition leg_from (s : Direction) (o x : R) (c : nat) : ROAPhaseAgent :=
  {| origin := o;
     pos := o + x;
     cycle := S c;
     target := o + dir_val s * 2 ^ c;
     duration := Rabs (dir_val s * 2 ^ c - x);
     velocity := (dir_val s * 2 ^ c - x) / Rabs (dir_val s * 2 ^ c - x);
     timer := 0;
     current_search_radius := 2 ^ c |}.

(** Two such agents, [D] apart, at time [t]. *)
Definition lockstep (s : Direction) (x t : R) (c : nat) (D : R) (k : nat)
  : TrialState :=
  {| global_t := t;
     agent_A := leg_from s 0 x c;
     agent_B := leg_from s D x c;
     draws := k |}.

(** ** The script's entry point *)

(** Which of the two closing messages the [__main__] block prints:
    ["SUCCESS: ... < 4.25"] or ["RESULT: ..."]. *)
Inductive Verdict : Type := Success | ResultOnly.

(** The [__main__] block: the default run, and the comparison of its mean
    with 4.25.  The value printed as [Average Time R] comes first. *)
Definition main (fuel : nat) (rng : nat -> Direction) : result (R * Verdict) :=
  final_R <- simulate_v31_final_completion fuel rng (Z.to_nat 50000) 2.0 ;;
  Ok (final_R, if Rlt_dec final_R 4.25 then Success else ResultOnly).

(** ** The kernel is bounded *)

Lemma intensity_nonneg (t c : R) : 0 <= get_roa_phase_intensity t c.
Proof. unfold get_roa_phase_intensity. apply Rabs_pos. Qed.

Lemma intensity_upper (t c : R) : get_roa_phase_intensity t c <= 1.5.
Proof.
  unfold get_roa_phase_intensity; cbv zeta.
  pose proof (SIN_bound (t * gamma + c)) as [Hs1 Hs2].
  pose proof (COS_bound (t * c / gamma)) as [Hc1 Hc2].
  apply Rabs_le. lra.
Qed.

Lemma field_strength_bounds (t a b : R) :
  0.5 <= field_strength t a b <= 2.
Proof.
  unfold field_strength; cbv zeta.
  pose proof (intensity_nonneg t a). pose proof (intensity_nonneg t b).
  pose proof (intensity_upper t a). pose proof (intensity_upper t b).
  lra.
Qed.

(** ** The solver, branch by branch *)

Section Solver.

Variables t_now leg pA vA pB vB idxA idxB radius : R.

Lemma solve_coincident :
  Rabs (pA - pB) < 1e-4 ->
  solve_roa_phase_locked_physics t_now leg pA vA pB vB idxA idxB radius
  = Some 0.
Proof.
  intros H. unfold solve_roa_phase_locked_physics; cbv zeta.
  destruct (Rlt_dec (Rabs (pA - pB)) 1e-4) as [_ | n]; [| contradiction].
  f_equal. lra.
Qed.

Lemma solve_field :
  1e-4 <= Rabs (pA - pB) ->
  Rabs (pA - pB) < effective_radius t_now idxA idxB radius ->
  solve_roa_phase_locked_physics t_now leg pA vA pB vB idxA idxB radius
  = Some 0.001.
Proof.
  intros H1 H2. unfold solve_roa_phase_locked_physics; cbv zeta.
  destruct (Rlt_dec (Rabs (pA - pB)) 1e-4) as [l | _]; [lra |].
  destruct (Rlt_dec (Rabs (pA - pB)) (effective_radius t_now idxA idxB radius))
    as [_ | n]; [reflexivity | contradiction].
Qed.

Lemma solve_classical (x : R) :
  1e-4 <= Rabs (pA - pB) ->
  effective_radius t_now idxA idxB radius <= Rabs (pA - pB) ->
  solve_roa_phase_locked_physics t_now leg pA vA pB vB idxA idxB radius
  = Some x ->
  Rabs (vA - vB) > 1e-9 /\ x = - (pA - pB) / (vA - vB) /\ 0 <= x <= leg.
Proof.
  intros H1 H2. unfold solve_roa_phase_locked_physics; cbv zeta.
  destruct (Rlt_dec (Rabs (pA - pB)) 1e-4) as [l | _]; [lra |].
  destruct (Rlt_dec (Rabs (pA - pB)) (effective_radius t_now idxA idxB radius))
    as [l | _]; [lra |].
  destruct (Rgt_dec (Rabs (vA - vB)) 1e-9) as [g | _]; [| discriminate].
  destruct (Rle_dec 0 (- (pA - pB) / (vA - vB))) as [l0 | _]; [| discriminate].
  destruct (Rle_dec (- (pA - pB) / (vA - vB)) leg) as [l1 | _]; [| discriminate].
  intros [= <-]. auto.
Qed.

End Solver.

(** ** Planning a leg *)

Lemma checked_div_ok (a b : R) : b <> 0 -> checked_div a b = Ok (a / b).
Proof.
  intros H. unfold checked_div. destruct (Req_dec_T b 0); [contradiction | reflexivity].
Qed.

Lemma checked_div_inv (a b q : R) :
  checked_div a b = Ok q -> b <> 0 /\ q = a / b.
Proof.
  unfold checked_div. destruct (Req_dec_T b 0); [discriminate |].
  intros [= <-]. auto.
Qed.

Lemma pow2_pos (n : nat) : 0 < 2 ^ n.
Proof. apply pow_lt; lra. Qed.

Lemma pow2_ge_1 (n : nat) : 1 <= 2 ^ n.
Proof. apply pow_R1_Rle; lra. Qed.


Lemma engage_overflow (d : Direction) (a : ROAPhaseAgent) :
  (1024 <= cycle a)%nat -> engage_phase_drive d a = OverflowError.
Proof.
  intros H. unfold engage_phase_drive.
  destruct (Nat.leb_spec 1024 (cycle a)); [reflexivity | lia].
Qed.

Lemma engage_ok (d : Direction) (a : ROAPhaseAgent) :
  (cycle a < 1024)%nat ->
  planned_target d a <> pos a ->
  engage_phase_drive d a = Ok (engaged d a).
Proof.
  intros Hc H. unfold engage_phase_drive; cbv zeta.
  destruct (Nat.leb_spec 1024 (cycle a)); [lia |].
  fold (planned_target d a).
  rewrite checked_div_ok; [reflexivity |].
  assert (0 < Rabs (planned_target d a - pos a)) by (apply Rabs_pos_lt; lra).
  lra.
Qed.

Lemma engage_inv (d : Direction) (a a' : ROAPhaseAgent) :
  engage_phase_drive d a = Ok a' ->
  (cycle a < 1024)%nat /\ planned_target d a <> pos a /\ a' = engaged d a.
Proof.
  unfold engage_phase_drive; cbv zeta.
  destruct (Nat.leb_spec 1024 (cycle a)); [discriminate |].
  fold (planned_target d a).
  destruct (checked_div _ _) as [q | | |] eqn:E; simpl; try discriminate.
  intros [= <-]. apply checked_div_inv in E as [Hnz ->].
  split; [assumption |]. split; [| reflexivity].
  intros Heq. apply Hnz. rewrite Heq.
  replace (pos a - pos a) with 0 by lra. rewrite Rabs_R0. lra.
Qed.

Lemma engage_zero_divide (d : Direction) (a : ROAPhaseAgent) :
  (cycle a < 1024)%nat ->
  planned_target d a = pos a -> engage_phase_drive d a = ZeroDivide.
Proof.
  intros Hc H. unfold engage_phase_drive; cbv zeta.
  destruct (Nat.leb_spec 1024 (cycle a)); [lia |].
  fold (planned_target d a).
  unfold checked_div.
  destruct (Req_dec_T _ 0) as [_ | n]; [reflexivity |].
  exfalso. apply n. rewrite H.
  replace (pos a - pos a) with 0 by lra. rewrite Rabs_R0. lra.
Qed.

Lemma engage_zero_divide_inv (d : Direction) (a : ROAPhaseAgent) :
  engage_phase_drive d a = ZeroDivide -> (cycle a < 1024)%nat.
Proof.
  unfold engage_phase_drive.
  destruct (Nat.leb_spec 1024 (cycle a)); [discriminate | auto].
Qed.

Lemma unit_velocity (x : R) : x <> 0 -> Rabs (x / (Rabs x / 1.0)) = 1.
Proof.
  intros H.
  assert (0 < Rabs x) by (apply Rabs_pos_lt; assumption).
  replace 1.0 with 1 by lra.
  replace (x / (Rabs x / 1)) with (x / Rabs x) by (field; lra).
  unfold Rdiv. rewrite Rabs_mult, Rabs_inv, Rabs_Rabsolu.
  field. lra.
Qed.

Lemma velocity_covers_leg (x : R) : x <> 0 -> x = x / (Rabs x / 1.0) * (Rabs x / 1.0 - 0).
Proof.
  intros H.
  assert (0 < Rabs x) by (apply Rabs_pos_lt; assumption).
  replace 1.0 with 1 by lra. field. lra.
Qed.

(** The first leg, planned by the constructor. *)
Lemma blank_target_differs (d : Direction) (p : R) :
  planned_target d (blank_agent p) <> pos (blank_agent p).
Proof.
  unfold planned_target; simpl. destruct d; simpl; lra.
Qed.

Lemma new_agent_ok (d : Direction) (p : R) :
  new_agent d p = Ok (engaged d (blank_agent p)).
Proof. apply engage_ok; [simpl; lia | apply blank_target_differs]. Qed.

Lemma first_leg_length (d : Direction) (p : R) :
  duration (engaged d (blank_agent p)) = 1.
Proof.
  unfold engaged, planned_target; simpl.
  destruct d; simpl.
  - rewrite Rabs_right by lra. lra.
  - rewrite Rabs_left by lra. lra.
Qed.

Lemma new_agent_on_leg (d : Direction) (p : R) :
  on_leg (engaged d (blank_agent p)).
Proof.
  pose proof (blank_target_differs d p) as Hne.
  pose proof (first_leg_length d p) as Hlen.
  constructor.
  - simpl; lia.
  - exists d. unfold engaged, planned_target; simpl. lra.
  - simpl. lra.
  - cbn [velocity engaged]. apply unit_velocity. lra.
  - cbn [target pos velocity duration timer engaged].
    apply velocity_covers_leg. lra.
  - rewrite Hlen. simpl. lra.
  - rewrite Hlen. lra.
Qed.

(** ** An agent's life, leg after leg *)

Lemma advance_on_leg (a : ROAPhaseAgent) (dt : R) :
  on_leg a -> 0 <= dt <= duration a - timer a -> on_leg (advance a dt).
Proof.
  intros [Hc Ht Hr Hs Ha Hti Hl] Hdt.
  constructor; cbn [advance origin pos cycle target duration velocity timer
                    current_search_radius]; try assumption.
  - transitivity (target a - pos a - velocity a * dt); [ring |].
    rewrite Ha. ring.
  - lra.
Qed.

Lemma Rabs_lower (a x : R) : a <= x \/ x <= - a -> a <= Rabs x.
Proof. intros H. unfold Rabs. destruct (Rcase_abs x); lra. Qed.

(** At the end of a leg the agent stands within [1e-9] of its target. *)
Lemma leg_done_near_target (a : ROAPhaseAgent) :
  on_leg a -> leg_done a -> Rabs (target a - pos a) < 1e-9.
Proof.
  intros [Hc Ht Hr Hs Ha Hti Hl] Hd. unfold leg_done in Hd.
  rewrite Ha, Rabs_mult, Hs. lra.
Qed.

(** The next target lies at least [2 ^ (cycle - 1)] away from the last
    one, so the next leg is not empty. *)
Lemma next_leg_length (d : Direction) (a : ROAPhaseAgent) :
  on_leg a -> leg_done a ->
  1 - 1e-9 <= Rabs (planned_target d a - pos a).
Proof.
  intros Hleg Hd.
  pose proof (leg_done_near_target a Hleg Hd) as Hnear.
  destruct Hleg as [Hc [d0 Ht] Hr Hs Ha Hti Hl].
  apply Rabs_def2 in Hnear as [Hn1 Hn2].
  unfold planned_target.
  destruct (cycle a) as [| c] eqn:Ec; [lia |].
  replace (S c - 1)%nat with c in Ht by lia.
  pose proof (pow2_ge_1 c) as Hp.
  rewrite <- tech_pow_Rmult.
  apply Rabs_lower.
  destruct d, d0; simpl in *; [left | left | right | right]; lra.
Qed.

Lemma next_target_differs (d : Direction) (a : ROAPhaseAgent) :
  on_leg a -> leg_done a -> planned_target d a <> pos a.
Proof.
  intros Hleg Hd Heq.
  pose proof (next_leg_length d a Hleg Hd) as H.
  rewrite Heq in H. replace (pos a - pos a) with 0 in H by lra.
  rewrite Rabs_R0 in H. lra.
Qed.

Lemma engaged_on_leg (d : Direction) (a : ROAPhaseAgent) :
  on_leg a -> leg_done a -> on_leg (engaged d a).
Proof.
  intros Hleg Hd.
  pose proof (next_leg_length d a Hleg Hd) as Hlen.
  pose proof (next_target_differs d a Hleg Hd) as Hne.
  constructor; cbn [engaged origin pos cycle target duration velocity timer
                    current_search_radius].
  - lia.
  - exists d. unfold planned_target.
    replace (S (cycle a) - 1)%nat with (cycle a) by lia. lra.
  - replace (S (cycle a) - 1)%nat with (cycle a) by lia. lra.
  - apply unit_velocity. lra.
  - apply velocity_covers_leg. lra.
  - lra.
  - lra.
Qed.

(** After [n] further calls the agent has made [S n] plans, and the
    conversion of [2 ** cycle] allows no more than 1023 further calls. *)
Lemma after_calls_cycle (p : R) (n : nat) (a : ROAPhaseAgent) :
  after_calls p n a ->
  cycle a = S n /\ current_search_radius a = 1.0 * 2 ^ n /\ (n <= 1023)%nat.
Proof.
  induction 1 as [d a Hnew | n a dt _ IH | n a d a' _ IH He | n a d _ IH He].
  - rewrite new_agent_ok in Hnew. injection Hnew as <-. simpl.
    repeat split; lia.
  - exact IH.
  - apply engage_inv in He as (Hlow & _ & ->). destruct IH as (IHc & _ & _).
    cbn [engaged cycle current_search_radius]. rewrite IHc in *.
    repeat split; lia.
  - apply engage_zero_divide_inv in He. destruct IH as (IHc & _ & _).
    cbn [engaged cycle current_search_radius]. rewrite IHc in *.
    repeat split; lia.
Qed.

(** Planning legs in a row right after the construction does not fail
    before the overflow: the agent has not left its origin. *)
Lemma replan_at_origin (p : R) (ds : list Direction) :
  forall n a,
    after_calls p n a -> pos a = origin a ->
    (n + length ds <= 1023)%nat ->
    exists a', replan ds a = Ok a' /\
               after_calls p (n + length ds) a' /\ pos a' = origin a'.
Proof.
  induction ds as [| d ds IH]; intros n a Hcalls Hpos Hlen; simpl in *.
  - exists a. rewrite Nat.add_0_r. auto.
  - destruct (after_calls_cycle p n a Hcalls) as (Hc & _ & _).
    assert (cycle a < 1024)%nat as Hlow by lia.
    assert (planned_target d a <> pos a) as Hne.
    { unfold planned_target. rewrite Hpos.
      pose proof (pow2_pos (cycle a)).
      destruct d; simpl; lra. }
    rewrite (engage_ok d a Hlow Hne). simpl.
    destruct (IH (S n) (engaged d a)) as (a' & Hr & Hca & Hp).
    + apply calls_engaged with (a := a) (d := d); [assumption |].
      apply engage_ok; assumption.
    + exact Hpos.
    + lia.
    + exists a'. rewrite <- Nat.add_succ_comm. auto.
Qed.

(** ** A trial, iteration after iteration *)

Lemma start_trial_ok (rng : nat -> Direction) (k : nat) (dist : R) :
  start_trial rng k dist = Ok (started rng k dist).
Proof.
  unfold start_trial. rewrite !new_agent_ok. reflexivity.
Qed.

Lemma started_inv (rng : nat -> Direction) (k : nat) (dist : R) :
  trial_inv (started rng k dist).
Proof.
  constructor; cbn [started agent_A agent_B global_t];
    try apply new_agent_on_leg;
    try (rewrite first_leg_length; simpl; lra);
    simpl; lra.
Qed.

Lemma next_leg_ok (rng : nat -> Direction) (a : ROAPhaseAgent) (k : nat) :
  on_leg a -> (cycle a < 1024)%nat ->
  next_leg rng a k = Ok (replanned rng a k).
Proof.
  intros Hleg Hlow. unfold next_leg, replanned.
  destruct (leg_done_dec a) as [Hd | _]; [| reflexivity].
  rewrite engage_ok; [reflexivity | assumption |].
  apply next_target_differs; assumption.
Qed.

Lemma replanned_done (rng : nat -> Direction) (a : ROAPhaseAgent) (k : nat) :
  leg_done a -> replanned rng a k = (engaged (rng k) a, S k).
Proof.
  intros H. unfold replanned.
  destruct (leg_done_dec a); [reflexivity | contradiction].
Qed.

Lemma replanned_running (rng : nat -> Direction) (a : ROAPhaseAgent) (k : nat) :
  ~ leg_done a -> replanned rng a k = (a, k).
Proof.
  intros H. unfold replanned.
  destruct (leg_done_dec a); [contradiction | reflexivity].
Qed.

Lemma step_dt_bounds (st : TrialState) :
  trial_inv st ->
  1e-9 <= step_dt st /\
  step_dt st <= duration (agent_A st) - timer (agent_A st) /\
  step_dt st <= duration (agent_B st) - timer (agent_B st).
Proof.
  intros [_ _ HA HB _ _]. unfold step_dt; cbv zeta.
  pose proof (Rmin_l (duration (agent_A st) - timer (agent_A st))
                     (duration (agent_B st) - timer (agent_B st))).
  pose proof (Rmin_r (duration (agent_A st) - timer (agent_A st))
                     (duration (agent_B st) - timer (agent_B st))).
  repeat split; try assumption.
  apply Rmin_glb; lra.
Qed.

Lemma update_state_ok (rng : nat -> Direction) (st : TrialState) :
  trial_inv st -> cycles_low st ->
  update_state rng st = Ok (updated rng st).
Proof.
  intros Hinv [HcA HcB].
  pose proof (step_dt_bounds st Hinv) as (H0 & HA & HB).
  destruct Hinv as [LA LB _ _ _ _].
  unfold update_state, updated; cbv zeta.
  rewrite next_leg_ok;
    [| apply advance_on_leg; [assumption | lra] | exact HcA].
  destruct (replanned rng (advance (agent_A st) (step_dt st)) (draws st))
    as [a2 k1]; simpl.
  rewrite next_leg_ok;
    [| apply advance_on_leg; [assumption | lra] | exact HcB].
  destruct (replanned rng (advance (agent_B st) (step_dt st)) k1) as [b2 k2].
  reflexivity.
Qed.

(** A leg lasts at least [1 - 2e-9] of the clock, so that a trial that has
    not reached the horizon is at most at cycle 1001. *)
Lemma cycle_bounded_by_clock (c : nat) (t tm : R) :
  (INR c - 1) * (1 - 2e-9) <= t - tm -> 0 <= tm -> t < 1000.0 ->
  (c <= 1001)%nat.
Proof.
  intros Hc Htm Ht.
  destruct (le_lt_dec c 1001) as [H | H]; [assumption | exfalso].
  apply le_INR in H. rewrite (INR_IZR_INZ 1002) in H. simpl Z.of_nat in H.
  lra.
Qed.

Lemma clock_cycles (st : TrialState) :
  trial_inv st -> global_t st < 1000.0 ->
  (cycle (agent_A st) <= 1001)%nat /\ (cycle (agent_B st) <= 1001)%nat.
Proof.
  intros Hinv Ht. split.
  - exact (cycle_bounded_by_clock _ _ _ (inv_A_clock _ Hinv)
             (proj1 (leg_timer _ (inv_A _ Hinv))) Ht).
  - exact (cycle_bounded_by_clock _ _ _ (inv_B_clock _ Hinv)
             (proj1 (leg_timer _ (inv_B _ Hinv))) Ht).
Qed.

Lemma clock_cycles_low (st : TrialState) :
  trial_inv st -> global_t st < 1000.0 -> cycles_low st.
Proof.
  intros Hinv Ht. destruct (clock_cycles st Hinv Ht). split; lia.
Qed.

(** One agent through the "Update Position" and "Next Leg" lines. *)
Lemma replanned_inv (rng : nat -> Direction) (a : ROAPhaseAgent) (k : nat)
    (t dt : R) :
  on_leg a ->
  (INR (cycle a) - 1) * (1 - 2e-9) <= t - timer a ->
  0 <= dt <= duration a - timer a ->
  let a' := fst (replanned rng (advance a dt) k) in
  on_leg a' /\
  timer a' + 1e-9 <= duration a' /\
  (INR (cycle a') - 1) * (1 - 2e-9) <= t + dt - timer a' /\
  (cycle a <= cycle a' <= S (cycle a))%nat /\
  (dt = duration a - timer a -> cycle a' = S (cycle a)).
Proof.
  intros Hleg Hclock Hdt a'.
  pose proof (advance_on_leg a dt Hleg Hdt) as Hleg1.
  subst a'. unfold replanned.
  destruct (leg_done_dec (advance a dt)) as [Hd | Hnd]; cbn [fst].
  - pose proof (engaged_on_leg (rng k) _ Hleg1 Hd) as Hleg2.
    split; [assumption |].
    pose proof (leg_length _ Hleg2) as Hlen.
    pose proof (leg_length _ Hleg) as Hlen0.
    unfold leg_done in Hd. apply Rabs_def2 in Hd as [Hd1 Hd2].
    cbn [advance duration timer] in Hd1, Hd2.
    cbn [engaged timer cycle advance] in *.
    rewrite S_INR.
    repeat split; try lra; lia.
  - split; [assumption |].
    unfold leg_done in Hnd.
    cbn [advance duration timer cycle] in *.
    assert (1e-9 <= duration a - (timer a + dt)) as Hrun.
    { destruct (Rle_or_gt 1e-9 (duration a - (timer a + dt))) as [H | H];
        [assumption |].
      exfalso. apply Hnd. apply Rabs_def1; lra. }
    repeat split; try lra; try lia.
Qed.

Lemma updated_inv (rng : nat -> Direction) (st : TrialState) :
  trial_inv st ->
  trial_inv (updated rng st) /\
  (cycle (agent_A st) + cycle (agent_B st)
   < cycle (agent_A (updated rng st)) + cycle (agent_B (updated rng st)))%nat.
Proof.
  intros Hinv. pose proof (step_dt_bounds st Hinv) as (H0 & HA & HB).
  destruct Hinv as [LA LB RA RB CA CB].
  assert (0 <= step_dt st <= duration (agent_A st) - timer (agent_A st)) as HdA by lra.
  assert (0 <= step_dt st <= duration (agent_B st) - timer (agent_B st)) as HdB by lra.
  pose proof (replanned_inv rng (agent_A st) (draws st) (global_t st) (step_dt st)
                LA CA HdA) as (A1 & A2 & A3 & A4 & A5).
  pose proof (replanned_inv rng (agent_B st)
                (snd (replanned rng (advance (agent_A st) (step_dt st)) (draws st)))
                (global_t st) (step_dt st) LB CB HdB) as (B1 & B2 & B3 & B4 & B5).
  split.
  - constructor; cbn [updated global_t agent_A agent_B]; assumption.
  - cbn [updated agent_A agent_B].
    assert (step_dt st = duration (agent_A st) - timer (agent_A st) \/
            step_dt st = duration (agent_B st) - timer (agent_B st)) as [E | E].
    { unfold step_dt; cbv zeta. unfold Rmin. destruct (Rle_dec _ _); auto. }
    + specialize (A5 E). lia.
    + specialize (B5 E). lia.
Qed.

Lemma updated_cycles (rng : nat -> Direction) (st : TrialState) :
  trial_inv st ->
  (cycle (agent_A (updated rng st)) <= S (cycle (agent_A st)))%nat /\
  (cycle (agent_B (updated rng st)) <= S (cycle (agent_B st)))%nat.
Proof.
  intros Hinv. pose proof (step_dt_bounds st Hinv) as (H0 & HA & HB).
  destruct Hinv as [LA LB RA RB CA CB].
  assert (0 <= step_dt st <= duration (agent_A st) - timer (agent_A st)) as HdA by lra.
  assert (0 <= step_dt st <= duration (agent_B st) - timer (agent_B st)) as HdB by lra.
  pose proof (replanned_inv rng (agent_A st) (draws st) (global_t st) (step_dt st)
                LA CA HdA) as (_ & _ & _ & A4 & _).
  pose proof (replanned_inv rng (agent_B st)
                (snd (replanned rng (advance (agent_A st) (step_dt st)) (draws st)))
                (global_t st) (step_dt st) LB CB HdB) as (_ & _ & _ & B4 & _).
  cbn [updated agent_A agent_B]. split; lia.
Qed.

Lemma trial_reach_inv (rng : nat -> Direction) (dist : R) (st : TrialState) :
  trial_reach rng dist st -> trial_inv st.
Proof.
  induction 1 as [k st Hs | st st' _ IH Ht _ Hu].
  - rewrite start_trial_ok in Hs. injection Hs as <-. apply started_inv.
  - rewrite (update_state_ok rng st IH (clock_cycles_low st IH Ht)) in Hu.
    injection Hu as <-.
    apply updated_inv; assumption.
Qed.

Lemma trial_reach_cycles (rng : nat -> Direction) (dist : R) (st : TrialState) :
  trial_reach rng dist st ->
  (cycle (agent_A st) <= 1002)%nat /\ (cycle (agent_B st) <= 1002)%nat.
Proof.
  intros Hr. destruct Hr as [k st Hs | st st' Hr Ht _ Hu].
  - rewrite start_trial_ok in Hs. injection Hs as <-. simpl. lia.
  - pose proof (trial_reach_inv _ _ _ Hr) as Hinv.
    rewrite (update_state_ok rng st Hinv (clock_cycles_low st Hinv Ht)) in Hu.
    injection Hu as <-.
    destruct (clock_cycles st Hinv Ht).
    destruct (updated_cycles rng st Hinv). lia.
Qed.

Lemma trial_reach_cycles_low (rng : nat -> Direction) (dist : R)
    (st : TrialState) :
  trial_reach rng dist st -> cycles_low st.
Proof.
  intros Hr. destruct (trial_reach_cycles _ _ _ Hr). split; lia.
Qed.

(** ** The loop ends *)

Lemma trial_loop_unfold (fuel : nat) (rng : nat -> Direction) (st : TrialState) :
  trial_loop fuel rng st =
  if Rlt_dec (global_t st) 1000.0 then
    match fuel with
    | O => OutOfFuel
    | S fuel' =>
        match physics_check st with
        | Some hit => Ok (Met (global_t st + hit), draws st)
        | None => st' <- update_state rng st ;; trial_loop fuel' rng st'
        end
    end
  else Ok (Horizon (global_t st), draws st).
Proof. destruct fuel; reflexivity. Qed.

(** Every iteration ends a leg of at least one agent, and a leg lasts
    nearly a time unit: the horizon is reached within [trial_fuel]
    iterations. *)
Lemma trial_loop_total (rng : nat -> Direction) :
  forall fuel st,
    trial_inv st ->
    (4004 <= cycle (agent_A st) + cycle (agent_B st) + fuel)%nat ->
    exists e k,
      trial_loop fuel rng st = Ok (e, k) /\
      forall t, e = Horizon t -> 1000.0 <= t.
Proof.
  induction fuel as [| fuel IH]; intros st Hinv Hfuel;
    rewrite trial_loop_unfold;
    destruct (Rlt_dec (global_t st) 1000.0) as [Hlt | Hge];
    try (exists (Horizon (global_t st)), (draws st); split; [reflexivity |];
         intros t [= <-]; lra).
  - exfalso. destruct (clock_cycles st Hinv Hlt). lia.
  - destruct (physics_check st) as [hit |].
    + exists (Met (global_t st + hit)), (draws st). split; [reflexivity |].
      intros t [=].
    + rewrite (update_state_ok rng st Hinv (clock_cycles_low st Hinv Hlt)).
      cbn [bind].
      destruct (updated_inv rng st Hinv) as [Hinv' Hprog].
      apply IH; [assumption | lia].
Qed.

Lemma run_trial_total (rng : nat -> Direction) (n k : nat) (dist : R) :
  exists e k',
    run_trial (trial_fuel + n) rng k dist = Ok (e, k') /\
    forall t, e = Horizon t -> 1000.0 <= t.
Proof.
  unfold run_trial. rewrite start_trial_ok. cbn [bind].
  apply trial_loop_total; [apply started_inv |].
  cbn [started agent_A agent_B engaged cycle]. unfold trial_fuel. lia.
Qed.

Lemma run_trials_total (rng : nat -> Direction) (n : nat) (dist : R) :
  forall trials k,
    exists times,
      run_trials (trial_fuel + n) rng k trials dist = Ok times /\
      length times = trials.
Proof.
  induction trials as [| trials IH]; intros k.
  - exists []. auto.
  - cbn [run_trials].
    destruct (run_trial_total rng n k dist) as (e & k' & -> & _).
    cbn [bind].
    destruct (IH k') as (rest & -> & Hlen). cbn [bind].
    exists (recorded e :: rest). simpl. auto.
Qed.

Lemma mean_ok (l : list R) :
  l <> [] -> mean l = Ok (sum_list l / INR (length l)).
Proof.
  intros H. unfold mean. apply checked_div_ok.
  destruct l as [| x l]; [contradiction |].
  apply not_0_INR. simpl. lia.
Qed.


(** ** Two agents that never meet

    When both agents draw the same directions they move in lockstep: their
    distance stays what it was, the classical test sees no relative
    velocity, and the field cannot bridge a distance above five radii. *)

Lemma agent_eq (a b : ROAPhaseAgent) :
  origin a = origin b -> pos a = pos b -> cycle a = cycle b ->
  target a = target b -> duration a = duration b ->
  velocity a = velocity b -> timer a = timer b ->
  current_search_radius a = current_search_radius b ->
  a = b.
Proof.
  destruct a, b; simpl; intros; subst; reflexivity.
Qed.

Lemma Rabs_dir_val (s : Direction) (x : R) : 0 <= x -> Rabs (dir_val s * x) = x.
Proof.
  intros H. destruct s; simpl.
  - rewrite Rabs_right by lra. lra.
  - rewrite Rabs_left1 by lra. lra.
Qed.

Lemma first_leg_from (s : Direction) (o : R) :
  engaged s (blank_agent o) = leg_from s o 0 0.
Proof.
  assert (planned_target s (blank_agent o) - pos (blank_agent o)
          = dir_val s * 2 ^ 0 - 0) as E
    by (unfold planned_target; simpl; lra).
  apply agent_eq; try reflexivity;
    cbn [engaged leg_from origin pos cycle target duration velocity
         current_search_radius]; rewrite ?E.
  - simpl. lra.
  - unfold planned_target; simpl. lra.
  - lra.
  - replace 1.0 with 1 by lra. rewrite Rdiv_1_r. reflexivity.
  - simpl. lra.
Qed.

Section Leg.

Variables (s : Direction) (o x : R) (c : nat).
Hypothesis leg_not_empty : dir_val s * 2 ^ c <> x.

Lemma leg_from_arrives :
  pos (advance (leg_from s o x c) (Rabs (dir_val s * 2 ^ c - x)))
  = o + dir_val s * 2 ^ c.
Proof.
  cbn [advance leg_from pos velocity].
  assert (0 < Rabs (dir_val s * 2 ^ c - x)) by (apply Rabs_pos_lt; lra).
  field. lra.
Qed.

Lemma leg_from_done :
  leg_done (advance (leg_from s o x c) (Rabs (dir_val s * 2 ^ c - x))).
Proof.
  unfold leg_done. cbn [advance leg_from duration timer].
  rewrite Rplus_0_l, Rminus_diag, Rabs_R0. lra.
Qed.

Lemma leg_from_next (s' : Direction) :
  engaged s' (advance (leg_from s o x c) (Rabs (dir_val s * 2 ^ c - x)))
  = leg_from s' o (dir_val s * 2 ^ c) (S c).
Proof.
  pose proof leg_from_arrives as Hpos.
  assert (planned_target s'
            (advance (leg_from s o x c) (Rabs (dir_val s * 2 ^ c - x)))
          - pos (advance (leg_from s o x c) (Rabs (dir_val s * 2 ^ c - x)))
          = dir_val s' * 2 ^ S c - dir_val s * 2 ^ c) as E.
  { rewrite Hpos. unfold planned_target.
    cbn [advance leg_from origin cycle]. lra. }
  apply agent_eq; try reflexivity;
    cbn [engaged leg_from origin pos cycle target duration velocity
         current_search_radius]; rewrite ?E.
  - exact Hpos.
  - unfold planned_target. cbn [advance leg_from origin cycle]. lra.
  - lra.
  - replace 1.0 with 1 by lra. rewrite Rdiv_1_r. reflexivity.
  - cbn [advance leg_from cycle]. lra.
Qed.

End Leg.

Section Lockstep.

Variables (rng : nat -> Direction) (D : R).

Lemma lockstep_step_dt (s : Direction) (x t : R) (c k : nat) :
  step_dt (lockstep s x t c D k) = Rabs (dir_val s * 2 ^ c - x).
Proof.
  unfold step_dt; simpl. unfold Rmin. destruct (Rle_dec _ _); lra.
Qed.

Lemma lockstep_updated (s s' : Direction) (x t : R) (c k : nat) :
  dir_val s * 2 ^ c <> x ->
  rng k = s' -> rng (S k) = s' ->
  updated rng (lockstep s x t c D k)
  = lockstep s' (dir_val s * 2 ^ c) (t + Rabs (dir_val s * 2 ^ c - x))
      (S c) D (S (S k)).
Proof.
  intros Hx Hk HSk. unfold updated; cbv zeta.
  rewrite lockstep_step_dt. cbn [lockstep agent_A agent_B draws global_t].
  rewrite !replanned_done by (apply leg_from_done).
  cbn [fst snd]. rewrite Hk, HSk.
  rewrite !leg_from_next by assumption.
  reflexivity.
Qed.

Lemma lockstep_no_meeting (s : Direction) (x t : R) (c k : nat) :
  5 * 2 ^ c <= D ->
  physics_check (lockstep s x t c D k) = None.
Proof.
  intros HD. pose proof (pow2_ge_1 c) as Hc.
  unfold physics_check, solve_roa_phase_locked_physics; cbv zeta.
  cbn [lockstep agent_A agent_B leg_from pos velocity cycle
       current_search_radius global_t].
  replace (0 + x - (D + x)) with (- D) by lra.
  rewrite Rabs_Ropp, Rabs_right by lra.
  destruct (Rlt_dec D 1e-4) as [l | _]; [lra |].
  destruct (Rlt_dec D _) as [l | _].
  - exfalso. unfold effective_radius in l.
    rewrite Rmax_left in l by lra.
    pose proof (field_strength_bounds t (INR (S c)) (INR (S c))) as [_ Hfs].
    assert (2 ^ c * field_strength t (INR (S c)) (INR (S c)) <= 2 ^ c * 2)
      by (apply Rmult_le_compat_l; lra).
    lra.
  - rewrite Rminus_diag, Rabs_R0.
    destruct (Rgt_dec 0 1e-9) as [g | _]; [lra | reflexivity].
Qed.

Lemma lockstep_loop_step (fuel : nat) (s s' : Direction) (x t : R) (c k : nat) :
  trial_inv (lockstep s x t c D k) ->
  dir_val s * 2 ^ c <> x -> rng k = s' -> rng (S k) = s' ->
  5 * 2 ^ c <= D -> t < 1000.0 ->
  trial_loop (S fuel) rng (lockstep s x t c D k)
  = trial_loop fuel rng
      (lockstep s' (dir_val s * 2 ^ c) (t + Rabs (dir_val s * 2 ^ c - x))
         (S c) D (S (S k)))
  /\ trial_inv
       (lockstep s' (dir_val s * 2 ^ c) (t + Rabs (dir_val s * 2 ^ c - x))
          (S c) D (S (S k))).
Proof.
  intros Hinv Hx Hk HSk HD Ht.
  rewrite <- (lockstep_updated s s') by assumption.
  split; [| apply updated_inv; assumption].
  rewrite trial_loop_unfold.
  destruct (Rlt_dec _ _) as [_ | n]; [| exfalso; apply n; exact Ht].
  rewrite lockstep_no_meeting by assumption.
  rewrite update_state_ok;
    [reflexivity | assumption | apply clock_cycles_low; assumption].
Qed.

(** One leg outwards on the side [s], from [2 ^ j] to [2 ^ S j]. *)
Lemma lockstep_outwards (fuel : nat) (s : Direction) (j k : nat) :
  trial_inv (lockstep s (dir_val s * 2 ^ j) (2 ^ j) (S j) D k) ->
  rng k = s -> rng (S k) = s ->
  5 * 2 ^ S j <= D -> 2 ^ j < 1000.0 ->
  trial_loop (S fuel) rng (lockstep s (dir_val s * 2 ^ j) (2 ^ j) (S j) D k)
  = trial_loop fuel rng
      (lockstep s (dir_val s * 2 ^ S j) (2 ^ S j) (S (S j)) D (S (S k)))
  /\ trial_inv
       (lockstep s (dir_val s * 2 ^ S j) (2 ^ S j) (S (S j)) D (S (S k))).
Proof.
  intros Hinv Hk HSk HD Ht.
  pose proof (pow2_pos j) as Hpos.
  assert (dir_val s * 2 ^ S j - dir_val s * 2 ^ j = dir_val s * 2 ^ j) as E
    by (simpl; lra).
  assert (dir_val s * 2 ^ S j <> dir_val s * 2 ^ j) as Hne
    by (destruct s; simpl; lra).
  destruct (lockstep_loop_step fuel s s _ _ _ _ Hinv Hne Hk HSk HD Ht)
    as [Hstep Hinv'].
  rewrite E, Rabs_dir_val in Hstep, Hinv' by lra.
  replace (2 ^ j + 2 ^ j) with (2 ^ S j) in Hstep, Hinv' by (simpl; lra).
  auto.
Qed.

(** [n] legs outwards in a row. *)
Lemma lockstep_outwards_run (s : Direction) :
  forall n fuel j k,
    trial_inv (lockstep s (dir_val s * 2 ^ j) (2 ^ j) (S j) D k) ->
    (forall i, (k <= i < k + 2 * n)%nat -> rng i = s) ->
    5 * 2 ^ (j + n) <= D -> 2 ^ (j + n) < 2000.0 ->
    trial_loop (n + fuel) rng (lockstep s (dir_val s * 2 ^ j) (2 ^ j) (S j) D k)
    = trial_loop fuel rng
        (lockstep s (dir_val s * 2 ^ (j + n)) (2 ^ (j + n)) (S (j + n)) D
           (k + 2 * n))
    /\ trial_inv
         (lockstep s (dir_val s * 2 ^ (j + n)) (2 ^ (j + n)) (S (j + n)) D
            (k + 2 * n)).
Proof.
  induction n as [| n IH]; intros fuel j k Hinv Hrng HD Ht.
  - replace (k + 2 * 0)%nat with k by lia.
    replace (j + 0)%nat with j by lia. auto.
  - assert (2 ^ S j <= 2 ^ (j + S n)) as Hmono
      by (apply Rle_pow; [lra | lia]).
    pose proof (pow2_pos j) as Hpos.
    destruct (lockstep_outwards (n + fuel) s j k Hinv) as [Hstep Hinv'];
      try (apply Hrng; lia); try (simpl in *; lra).
    cbn [Nat.add]. rewrite Hstep.
    replace (j + S n)%nat with (S j + n)%nat in * by lia.
    replace (k + 2 * S n)%nat with (S (S k) + 2 * n)%nat by lia.
    apply IH; try assumption.
    intros i Hi. apply Hrng. lia.
Qed.

End Lockstep.

(** Every draw is [1]: the times are 1, 2, 4, ..., 512, 1024. *)
Lemma always_plus_trial (D : R) :
  5 * 2 ^ 10 <= D ->
  run_trial trial_fuel always_plus 0 D = Ok (Horizon 1024, 24%nat).
Proof.
  intros HD. unfold run_trial. rewrite start_trial_ok. cbn [bind].
  pose proof (started_inv always_plus 0 D) as Hinv.
  unfold started, always_plus in *.
  rewrite !first_leg_from in *.
  replace 0.0 with 0 in * by lra.
  fold (lockstep Plus 0 0 0 D 2) in *. fold always_plus.
  assert (dir_val Plus * 2 ^ 0 - 0 = dir_val Plus * 2 ^ 0) as E by lra.
  destruct (lockstep_loop_step always_plus D (trial_fuel - 1) Plus Plus
              0 0 0 2 Hinv) as [Hstep Hinv'];
    try reflexivity; try (simpl in *; lra).
  rewrite E, Rabs_dir_val, Rplus_0_l in Hstep, Hinv' by (simpl; lra).
  change trial_fuel with (S (trial_fuel - 1)). rewrite Hstep.
  assert (forall i, (4 <= i < 4 + 2 * 10)%nat -> always_plus i = Plus) as Hrng
    by reflexivity.
  assert (5 * 2 ^ (0 + 10) <= D) as HD10 by exact HD.
  assert (2 ^ (0 + 10) < 2000.0) as Ht10 by (simpl; lra).
  destruct (lockstep_outwards_run always_plus D Plus 10 (trial_fuel - 11)
              0 4 Hinv' Hrng HD10 Ht10) as [Hrun _].
  change (trial_fuel - 1)%nat with (10 + (trial_fuel - 11))%nat.
  rewrite Hrun. rewrite trial_loop_unfold.
  cbn [lockstep global_t draws Nat.add].
  destruct (Rlt_dec _ _) as [l | _]; [simpl in l; lra |].
  assert (2 ^ 10 = 1024) as -> by (simpl; lra).
  reflexivity.
Qed.


(** ** Where the driver plans a leg *)

Lemma plan_site_cases (rng : nat -> Direction) (dist : R) (a : ROAPhaseAgent) :
  plan_site rng dist a ->
  (exists p, a = blank_agent p) \/ (on_leg a /\ leg_done a).
Proof.
  intros [ | | st Hr _ _ Hd | st Hr _ _ Hd].
  - left. eexists; reflexivity.
  - left. eexists; reflexivity.
  - right. split; [| assumption].
    pose proof (trial_reach_inv _ _ _ Hr) as Hinv.
    pose proof (step_dt_bounds st Hinv) as (H0 & HA & HB).
    apply advance_on_leg; [apply Hinv | lra].
  - right. split; [| assumption].
    pose proof (trial_reach_inv _ _ _ Hr) as Hinv.
    pose proof (step_dt_bounds st Hinv) as (H0 & HA & HB).
    apply advance_on_leg; [apply Hinv | lra].
Qed.

Lemma plan_site_ready (rng : nat -> Direction) (dist : R) (a : ROAPhaseAgent)
    (d : Direction) :
  plan_site rng dist a -> planned_target d a <> pos a.
Proof.
  intros H. destruct (plan_site_cases _ _ _ H) as [[p ->] | [Hleg Hd]].
  - apply blank_target_differs.
  - apply next_target_differs; assumption.
Qed.

Lemma plan_site_low (rng : nat -> Direction) (dist : R) (a : ROAPhaseAgent) :
  plan_site rng dist a -> (cycle a < 1024)%nat.
Proof.
  intros [ | | st Hr _ _ _ | st Hr _ _ _]; try (simpl; lia);
    destruct (trial_reach_cycles _ _ _ Hr); cbn [advance cycle]; lia.
Qed.


(** ** Trials at separation zero *)





(** * The specified properties *)

(** ** The interaction solver *)

(** C5.  Whenever [|posA - posB| < 1e-4] the solver returns [0.0],
    whatever the time, the leg duration, the velocities, the cycle indices
    and the radius are. *)
Theorem coincidence_returns_zero
    (t_now leg pA vA pB vB idxA idxB radius : R) :
  Rabs (pA - pB) < 1e-4 ->
  solve_roa_phase_locked_physics t_now leg pA vA pB vB idxA idxB radius
  = Some 0.
Proof. apply solve_coincident. Qed.

Lemma coincidence_returns_zero_witness :
  Rabs (3 - 3.00005) < 1e-4 /\
  solve_roa_phase_locked_physics 7 2 3 1 3.00005 (-1) 4 5 16 = Some 0.
Proof.
  assert (Rabs (3 - 3.00005) < 1e-4) as H
    by (rewrite Rabs_left by lra; lra).
  split; [exact H |].
  exact (coincidence_returns_zero 7 2 3 1 3.00005 (-1) 4 5 16 H).
Defined.

(** C6.  When the coincidence shortcut does not fire
    ([|posA - posB| >= 1e-4]) and [|posA - posB|] is below the effective
    radius [radius * ((intensity(t, cycleA) + intensity(t, cycleB)) / 2 + 0.5)
    * 2.5], the solver returns exactly [0.001]. *)
Theorem field_bridge_returns_offset
    (t_now leg pA vA pB vB idxA idxB radius : R) :
  1e-4 <= Rabs (pA - pB) ->
  Rabs (pA - pB)
  < radius * ((get_roa_phase_intensity t_now idxA
               + get_roa_phase_intensity t_now idxB) / 2.0 + 0.5) * 2.5 ->
  solve_roa_phase_locked_physics t_now leg pA vA pB vB idxA idxB radius
  = Some 0.001.
Proof. intros H1 H2. apply solve_field; assumption. Qed.

Lemma unit_gap_inside_field (t a b : R) :
  1e-4 <= Rabs (0 - 1) /\
  Rabs (0 - 1)
  < 1 * ((get_roa_phase_intensity t a + get_roa_phase_intensity t b) / 2.0
         + 0.5) * 2.5.
Proof.
  pose proof (intensity_nonneg t a). pose proof (intensity_nonneg t b).
  rewrite Rabs_left by lra. lra.
Qed.

Lemma field_bridge_returns_offset_witness :
  (1e-4 <= Rabs (0 - 1) /\
   Rabs (0 - 1)
   < 1 * ((get_roa_phase_intensity 0 1 + get_roa_phase_intensity 0 1) / 2.0
          + 0.5) * 2.5) /\
  solve_roa_phase_locked_physics 0 1 0 1 1 (-1) 1 1 1 = Some 0.001.
Proof.
  destruct (unit_gap_inside_field 0 1 1) as [H1 H2].
  split; [split; [exact H1 | exact H2] |].
  exact (field_bridge_returns_offset 0 1 0 1 1 (-1) 1 1 1 H1 H2).
Defined.

(** C1, as the code has it.  With [legDuration >= 0] a result of the
    solver is the absence value, an offset within [[0, legDuration]], or
    the constant [0.001] of the field-superposition branch; the coincidence
    shortcut and the classical fallback never leave [[0, legDuration]], and
    no result does once [legDuration >= 0.001]. *)
Theorem solve_result_range
    (t_now leg pA vA pB vB idxA idxB radius x : R) :
  0 <= leg ->
  solve_roa_phase_locked_physics t_now leg pA vA pB vB idxA idxB radius
  = Some x ->
  (0 <= x <= leg \/
   (x = 0.001 /\
    1e-4 <= Rabs (pA - pB) < effective_radius t_now idxA idxB radius)) /\
  (0.001 <= leg -> 0 <= x <= leg).
Proof.
  intros Hleg Hx.
  destruct (Rlt_dec (Rabs (pA - pB)) 1e-4) as [Hc | Hc].
  - rewrite solve_coincident in Hx by assumption.
    injection Hx as <-. split; [left |]; lra.
  - apply Rnot_lt_le in Hc.
    destruct (Rlt_dec (Rabs (pA - pB)) (effective_radius t_now idxA idxB radius))
      as [Hf | Hf].
    + rewrite solve_field in Hx by assumption.
      injection Hx as <-. split; [right; lra | lra].
    + apply Rnot_lt_le in Hf.
      destruct (solve_classical _ _ _ _ _ _ _ _ _ x Hc Hf Hx) as (_ & _ & Hr).
      split; [left |]; lra.
Qed.

Lemma solve_result_range_witness :
  (0 <= 1 /\
   solve_roa_phase_locked_physics 0 1 0 1 1 (-1) 1 1 1 = Some 0.001) /\
  (0 <= 0.001 <= 1 \/
   (0.001 = 0.001 /\ 1e-4 <= Rabs (0 - 1) < effective_radius 0 1 1 1)) /\
  (0.001 <= 1 -> 0 <= 0.001 <= 1).
Proof.
  assert (solve_roa_phase_locked_physics 0 1 0 1 1 (-1) 1 1 1 = Some 0.001)
    as H by (destruct (unit_gap_inside_field 0 1 1); apply solve_field; assumption).
  split; [split; [lra | exact H] |].
  exact (solve_result_range 0 1 0 1 1 (-1) 1 1 1 0.001 Rle_0_1 H).
Defined.

(** C1, as stated, fails: on a leg shorter than [0.001] the field branch
    still answers [0.001]. *)
Lemma field_offset_beyond_leg :
  0 <= 0.0005 /\
  solve_roa_phase_locked_physics 0 0.0005 0 1 1 (-1) 1 1 1 = Some 0.001 /\
  ~ (0 <= 0.001 <= 0.0005).
Proof.
  split; [lra |]. split; [| lra].
  destruct (unit_gap_inside_field 0 1 1). apply solve_field; assumption.
Qed.

(** ** The agent *)

(** C3, as the code has it.  An agent constructed at any position [p] can
    take at most 1023 further calls of [engage_phase_drive], those that
    leave a nan velocity included; after [n] of them its search radius is
    [2 ^ n] (and its cycle [n + 1]), the leg that a call plans gets the
    radius [2 ^ cycle] of the cycle before its increment, and after 1023
    calls every further call raises OverflowError. *)
Theorem search_radius_after_calls (p : R) (n : nat) (a : ROAPhaseAgent) :
  after_calls p n a ->
  (n <= 1023)%nat /\
  current_search_radius a = 2 ^ n /\
  cycle a = S n /\
  (forall d a',
      engage_phase_drive d a = Ok a' ->
      current_search_radius a' = 2 ^ cycle a /\ cycle a' = S (cycle a)) /\
  (n = 1023%nat -> forall d, engage_phase_drive d a = OverflowError).
Proof.
  intros H. destruct (after_calls_cycle p n a H) as (Hc & Hr & Hn).
  split; [assumption |]. split; [lra |]. split; [assumption |]. split.
  - intros d a' He. apply engage_inv in He as (_ & _ & ->).
    split; [simpl; lra | reflexivity].
  - intros -> d. apply engage_overflow. lia.
Qed.

Lemma two_calls_at_origin :
  exists a,
    replan [Minus; Plus] (engaged Plus (blank_agent 5)) = Ok a /\
    after_calls 5 2 a.
Proof.
  destruct (replan_at_origin 5 [Minus; Plus] 0 (engaged Plus (blank_agent 5)))
    as (a & Hr & Hc & _).
  - apply calls_new with (d := Plus). apply new_agent_ok.
  - reflexivity.
  - simpl. lia.
  - exists a. auto.
Qed.

Lemma search_radius_after_calls_witness :
  exists a,
    after_calls 5 2 a /\
    (2 <= 1023)%nat /\
    current_search_radius a = 2 ^ 2 /\
    cycle a = 3%nat /\
    (forall d a',
        engage_phase_drive d a = Ok a' ->
        current_search_radius a' = 2 ^ cycle a /\ cycle a' = S (cycle a)) /\
    (2%nat = 1023%nat -> forall d, engage_phase_drive d a = OverflowError).
Proof.
  destruct two_calls_at_origin as (a & _ & Hc).
  exists a. split; [exact Hc |].
  exact (search_radius_after_calls 5 2 a Hc).
Defined.

(** C3, as stated, fails at [n = 1024]: an agent constructed at 0 takes
    1023 further calls and then has the radius [2 ^ 1023]; the next call
    raises OverflowError, whatever it draws, so that no state with the
    radius [2 ^ 1024] follows. *)
Lemma call_1024_overflows :
  exists a,
    replan (repeat Plus 1023) (engaged Plus (blank_agent 0)) = Ok a /\
    after_calls 0 1023 a /\
    current_search_radius a = 2 ^ 1023 /\
    forall d, engage_phase_drive d a = OverflowError.
Proof.
  destruct (replan_at_origin 0 (repeat Plus 1023) 0
              (engaged Plus (blank_agent 0))) as (a & Hr & Hc & _).
  - apply calls_new with (d := Plus). apply new_agent_ok.
  - reflexivity.
  - rewrite repeat_length. lia.
  - rewrite repeat_length in Hc. cbn [Nat.add] in Hc.
    destruct (after_calls_cycle 0 1023 a Hc) as (Hcyc & Hrad & _).
    exists a. repeat split; try assumption.
    + lra.
    + intros d. apply engage_overflow. lia.
Qed.


Lemma small_separation : Rabs 2 <= 2 ^ 32.
Proof. rewrite Rabs_right by lra. simpl. lra. Qed.



(** C10, as the code has it.  At every call of [engage_phase_drive] that a
    trial makes, for an initial separation of magnitude at most [2 ^ 32],
    the position differs from the newly chosen target, so the leg duration
    is strictly positive and the division that computes the velocity does
    not divide by zero. *)
Theorem planning_never_divides_by_zero
    (rng : nat -> Direction) (dist : R) (a : ROAPhaseAgent) (d : Direction) :
  Rabs dist <= 2 ^ 32 ->
  plan_site rng dist a ->
  planned_target d a <> pos a /\
  0 < Rabs (planned_target d a - pos a) / 1.0 /\
  engage_phase_drive d a <> ZeroDivide /\
  exists a',
    engage_phase_drive d a = Ok a' /\
    target a' = planned_target d a /\
    duration a' = Rabs (planned_target d a - pos a) / 1.0.
Proof.
  intros _ Hsite.
  pose proof (plan_site_ready rng dist a d Hsite) as Hne.
  pose proof (plan_site_low rng dist a Hsite) as Hlow.
  assert (0 < Rabs (planned_target d a - pos a)) by (apply Rabs_pos_lt; lra).
  split; [assumption |]. split; [lra |].
  rewrite (engage_ok d a Hlow Hne).
  split; [discriminate |].
  exists (engaged d a). auto.
Qed.

Lemma planning_never_divides_by_zero_witness :
  (Rabs 2 <= 2 ^ 32 /\ plan_site always_plus 2 (blank_agent 0.0)) /\
  planned_target Plus (blank_agent 0.0) <> pos (blank_agent 0.0) /\
  0 < Rabs (planned_target Plus (blank_agent 0.0) - pos (blank_agent 0.0)) / 1.0 /\
  engage_phase_drive Plus (blank_agent 0.0) <> ZeroDivide /\
  exists a',
    engage_phase_drive Plus (blank_agent 0.0) = Ok a' /\
    target a' = planned_target Plus (blank_agent 0.0) /\
    duration a' = Rabs (planned_target Plus (blank_agent 0.0)
                        - pos (blank_agent 0.0)) / 1.0.
Proof.
  split; [split; [exact small_separation | apply site_new_A] |].
  exact (planning_never_divides_by_zero always_plus 2 (blank_agent 0.0) Plus
           small_separation (site_new_A always_plus 2)).
Defined.

(** C10, as stated, fails at the separation [1e16]: binary64 has
    [1e16 + 1.0 == 1e16], so the constructor of the second agent of a trial
    finds its new target on its position, gets the leg duration [0.0] and
    divides [0.0] by [0.0]; the velocity is nan. *)
Lemma constructor_divides_zero_by_zero :
  exists b,
    F64.new_agent Plus 1e16 = Ok b /\
    PrimFloat.eqb (F64.target b) (F64.pos b) = true /\
    F64.duration b = 0%float /\
    PrimFloat.eqb (F64.target b - F64.pos b)%float 0 = true /\
    PrimFloat.is_nan (F64.velocity b) = true.
Proof.
  eexists.
  split; [vm_compute; reflexivity |].
  repeat split; vm_compute; reflexivity.
Qed.

(** ** The driver *)





(** C8, as the code has it.  In a trial with an initial separation of
    magnitude at most [2 ^ 32], at every solver call both timers lie in
    [[0, legDuration]], and so they do after the advance; an agent whose
    timer is then within [1e-9] of its leg duration plans its next leg in
    the same iteration, the other one is left as it is, and no agent is at
    the end of its leg when the next solver call is made. *)
Theorem timer_within_leg
    (rng : nat -> Direction) (dist : R) (st : TrialState) :
  Rabs dist <= 2 ^ 32 ->
  trial_reach rng dist st ->
  let a1 := advance (agent_A st) (step_dt st) in
  let b1 := advance (agent_B st) (step_dt st) in
  (0 <= timer (agent_A st) <= duration (agent_A st)) /\
  (0 <= timer (agent_B st) <= duration (agent_B st)) /\
  (0 <= timer a1 <= duration a1) /\
  (0 <= timer b1 <= duration b1) /\
  exists st',
    update_state rng st = Ok st' /\
    (leg_done a1 ->
     exists d, engage_phase_drive d a1 = Ok (agent_A st') /\
               timer (agent_A st') = 0) /\
    (leg_done b1 ->
     exists d, engage_phase_drive d b1 = Ok (agent_B st') /\
               timer (agent_B st') = 0) /\
    (~ leg_done a1 -> agent_A st' = a1) /\
    (~ leg_done b1 -> agent_B st' = b1) /\
    (0 <= timer (agent_A st') <= duration (agent_A st')) /\
    (0 <= timer (agent_B st') <= duration (agent_B st')) /\
    ~ leg_done (agent_A st') /\
    ~ leg_done (agent_B st').
Proof.
  intros _ Hreach a1 b1.
  pose proof (trial_reach_inv _ _ _ Hreach) as Hinv.
  pose proof (trial_reach_cycles_low _ _ _ Hreach) as [HcA HcB].
  pose proof (step_dt_bounds st Hinv) as (H0 & HA & HB).
  assert (on_leg a1) as La1 by (apply advance_on_leg; [apply Hinv | lra]).
  assert (on_leg b1) as Lb1 by (apply advance_on_leg; [apply Hinv | lra]).
  destruct (updated_inv rng st Hinv) as [Hinv' _].
  split; [apply (leg_timer _ (inv_A _ Hinv)) |].
  split; [apply (leg_timer _ (inv_B _ Hinv)) |].
  split; [apply (leg_timer _ La1) |].
  split; [apply (leg_timer _ Lb1) |].
  exists (updated rng st).
  split; [apply update_state_ok; [assumption | split; assumption] |].
  assert (forall a, on_leg a -> timer a + 1e-9 <= duration a -> ~ leg_done a)
    as Hrunning.
  { intros a _ Hrun Hd. unfold leg_done in Hd.
    apply Rabs_def2 in Hd. lra. }
  repeat split;
    try apply (leg_timer _ (inv_A _ Hinv'));
    try apply (leg_timer _ (inv_B _ Hinv')).
  - intros Hd. exists (rng (draws st)).
    unfold updated; cbv zeta; cbn [agent_A]. fold a1.
    rewrite replanned_done by assumption. cbn [fst].
    split; [| reflexivity].
    apply engage_ok; [exact HcA | apply next_target_differs; assumption].
  - intros Hd.
    exists (rng (snd (replanned rng a1 (draws st)))).
    unfold updated; cbv zeta; cbn [agent_B]. fold a1 b1.
    rewrite (replanned_done rng b1) by assumption. cbn [fst].
    split; [| reflexivity].
    apply engage_ok; [exact HcB | apply next_target_differs; assumption].
  - intros Hd. unfold updated; cbv zeta; cbn [agent_A]. fold a1.
    rewrite replanned_running by assumption. reflexivity.
  - intros Hd. unfold updated; cbv zeta; cbn [agent_B]. fold a1 b1.
    rewrite (replanned_running rng b1) by assumption. reflexivity.
  - apply Hrunning; apply Hinv'.
  - apply Hrunning; apply Hinv'.
Qed.

Lemma timer_within_leg_witness :
  (Rabs 2 <= 2 ^ 32 /\
   trial_reach always_plus 2 (started always_plus 0 2)) /\
  let st := started always_plus 0 2 in
  let a1 := advance (agent_A st) (step_dt st) in
  let b1 := advance (agent_B st) (step_dt st) in
  (0 <= timer (agent_A st) <= duration (agent_A st)) /\
  (0 <= timer (agent_B st) <= duration (agent_B st)) /\
  (0 <= timer a1 <= duration a1) /\
  (0 <= timer b1 <= duration b1) /\
  exists st',
    update_state always_plus st = Ok st' /\
    (leg_done a1 ->
     exists d, engage_phase_drive d a1 = Ok (agent_A st') /\
               timer (agent_A st') = 0) /\
    (leg_done b1 ->
     exists d, engage_phase_drive d b1 = Ok (agent_B st') /\
               timer (agent_B st') = 0) /\
    (~ leg_done a1 -> agent_A st' = a1) /\
    (~ leg_done b1 -> agent_B st' = b1) /\
    (0 <= timer (agent_A st') <= duration (agent_A st')) /\
    (0 <= timer (agent_B st') <= duration (agent_B st')) /\
    ~ leg_done (agent_A st') /\
    ~ leg_done (agent_B st').
Proof.
  assert (trial_reach always_plus 2 (started always_plus 0 2)) as H
    by (apply trial_started with (k := 0%nat); apply start_trial_ok).
  split; [split; [exact small_separation | exact H] |].
  exact (timer_within_leg always_plus 2 (started always_plus 0 2)
           small_separation H).
Defined.

(** C8, as stated, fails at the separation [1e16]: the second agent is
    constructed with the leg duration [0.0] and the velocity nan; the first
    solver call finds no meeting, the step is [min(1.0, 0.0) = 0.0], the
    agent's position becomes nan and its "Next Leg" call plans a leg of
    duration nan.  At the next solver call its timer [0.0] is not within
    [[0, legDuration]]: the comparison with nan is false. *)
Lemma timer_outside_nan_leg :
  exists st,
    F64.first_iteration F64.libm_at_start Plus Plus Plus Plus 1e16
    = Ok (Some st) /\
    PrimFloat.is_nan (F64.pos (F64.agent_B st)) = true /\
    PrimFloat.is_nan (F64.duration (F64.agent_B st)) = true /\
    F64.timer (F64.agent_B st) = 0%float /\
    PrimFloat.leb (F64.timer (F64.agent_B st)) (F64.duration (F64.agent_B st))
    = false.
Proof.
  eexists.
  split; [vm_compute; reflexivity |].
  repeat split; vm_compute; reflexivity.
Qed.

(** * Further properties of the code *)

(** ** The kernel and the reach of the field *)

Lemma intensity_vanishes :
  get_roa_phase_intensity (7 * PI / 6 / gamma) 0 = 0.
Proof.
  unfold get_roa_phase_intensity; cbv zeta.
  assert (gamma <> 0) as Hg by (unfold gamma; lra).
  replace (7 * PI / 6 / gamma * gamma + 0) with (PI / 6 + PI) by (field; assumption).
  replace (7 * PI / 6 / gamma * 0 / gamma) with 0 by (field; assumption).
  rewrite neg_sin, sin_PI6, cos_0.
  replace (- (1 / 2) + 0.5 * 1) with 0 by lra.
  apply Rabs_R0.
Qed.

(** X1.  The phase intensity lies in [[0, 1.5]] for every time and every
    cycle index, and the lower end is attained: the kernel alone does not
    keep the field above 0.2. *)
Theorem intensity_range :
  (forall t c, 0 <= get_roa_phase_intensity t c <= 1.5) /\
  exists t, get_roa_phase_intensity t 0 = 0.
Proof.
  split.
  - intros t c. split; [apply intensity_nonneg | apply intensity_upper].
  - exists (7 * PI / 6 / gamma). apply intensity_vanishes.
Qed.

Lemma effective_radius_bounds (t a b radius : R) :
  0 <= radius ->
  1.25 * radius <= effective_radius t a b radius <= 5 * radius.
Proof.
  intros Hr. unfold effective_radius.
  pose proof (field_strength_bounds t a b) as [Hlo Hhi].
  assert (radius * 0.5 <= radius * field_strength t a b)
    by (apply Rmult_le_compat_l; lra).
  assert (radius * field_strength t a b <= radius * 2)
    by (apply Rmult_le_compat_l; lra).
  lra.
Qed.

(** X2.  Two agents that are not coincident and closer than 1.25 radii are
    bridged by the field at any time, whatever their cycle indices and
    velocities: the solver returns [0.001]. *)
Theorem bridge_within_reach
    (t_now leg pA vA pB vB idxA idxB radius : R) :
  1e-4 <= Rabs (pA - pB) ->
  Rabs (pA - pB) < 1.25 * radius ->
  solve_roa_phase_locked_physics t_now leg pA vA pB vB idxA idxB radius
  = Some 0.001.
Proof.
  intros Hfar Hnear.
  assert (0 <= radius) as Hr by (pose proof (Rabs_pos (pA - pB)); lra).
  pose proof (effective_radius_bounds t_now idxA idxB radius Hr) as [Hlo _].
  apply solve_field; [assumption | lra].
Qed.

Lemma bridge_within_reach_witness :
  (1e-4 <= Rabs (0 - 2) /\ Rabs (0 - 2) < 1.25 * 2) /\
  solve_roa_phase_locked_physics 30 1 0 1 2 1 3 4 2 = Some 0.001.
Proof.
  assert (1e-4 <= Rabs (0 - 2)) as H1 by (rewrite Rabs_left by lra; lra).
  assert (Rabs (0 - 2) < 1.25 * 2) as H2 by (rewrite Rabs_left by lra; lra).
  split; [split; [exact H1 | exact H2] |].
  exact (bridge_within_reach 30 1 0 1 2 1 3 4 2 H1 H2).
Defined.

(** The fallback, when neither the shortcut nor the field applies. *)
Lemma classical_crossing (t_now leg pA vA pB vB idxA idxB radius x : R) :
  1e-4 <= Rabs (pA - pB) ->
  effective_radius t_now idxA idxB radius <= Rabs (pA - pB) ->
  solve_roa_phase_locked_physics t_now leg pA vA pB vB idxA idxB radius
  = Some x
  <-> Rabs (vA - vB) > 1e-9 /\ 0 <= x <= leg /\ pA + vA * x = pB + vB * x.
Proof.
  intros Hfar Hout. split.
  - intros Hx.
    destruct (solve_classical _ _ _ _ _ _ _ _ _ x Hfar Hout Hx) as (Hv & -> & Hr).
    assert (vA - vB <> 0) as Hnz by (intros E; rewrite E, Rabs_R0 in Hv; lra).
    repeat split; try assumption; try tauto.
    apply Rminus_diag_uniq. field_simplify; [lra | assumption].
  - intros (Hv & Hr & Hcross).
    assert (vA - vB <> 0) as Hnz by (intros E; rewrite E, Rabs_R0 in Hv; lra).
    assert (x = - (pA - pB) / (vA - vB)) as Hx.
    { apply Rmult_eq_reg_r with (r := vA - vB); [| assumption].
      field_simplify; [lra | assumption]. }
    unfold solve_roa_phase_locked_physics; cbv zeta.
    destruct (Rlt_dec (Rabs (pA - pB)) 1e-4) as [l | _]; [lra |].
    destruct (Rlt_dec (Rabs (pA - pB)) (effective_radius t_now idxA idxB radius))
      as [l | _]; [lra |].
    destruct (Rgt_dec (Rabs (vA - vB)) 1e-9) as [_ | n]; [| contradiction].
    rewrite <- Hx.
    destruct (Rle_dec 0 x) as [_ | n]; [| lra].
    destruct (Rle_dec x leg) as [_ | n]; [reflexivity | lra].
Qed.

(** X3.  Beyond five radii the field cannot bridge: for agents at least
    [5 * radius] apart the solver returns an offset exactly when the two
    straight trajectories cross at that offset within the leg and the
    relative velocity exceeds [1e-9]; agents with equal velocities get no
    meeting. *)
Theorem no_bridge_beyond_reach
    (t_now leg pA vA pB vB idxA idxB radius : R) :
  0 <= radius ->
  1e-4 <= Rabs (pA - pB) ->
  5 * radius <= Rabs (pA - pB) ->
  (forall x,
      solve_roa_phase_locked_physics t_now leg pA vA pB vB idxA idxB radius
      = Some x
      <-> Rabs (vA - vB) > 1e-9 /\ 0 <= x <= leg /\
          pA + vA * x = pB + vB * x) /\
  (vA = vB ->
   solve_roa_phase_locked_physics t_now leg pA vA pB vB idxA idxB radius
   = None).
Proof.
  intros Hr Hfar Hout.
  pose proof (effective_radius_bounds t_now idxA idxB radius Hr) as [_ Hhi].
  assert (effective_radius t_now idxA idxB radius <= Rabs (pA - pB)) as Hno
    by lra.
  split.
  - intros x. apply classical_crossing; assumption.
  - intros ->.
    destruct (solve_roa_phase_locked_physics t_now leg pA vB pB vB idxA idxB radius)
      as [x |] eqn:E; [| reflexivity].
    apply classical_crossing in E as (Hv & _); try assumption.
    rewrite Rminus_diag, Rabs_R0 in Hv. lra.
Qed.

Lemma no_bridge_beyond_reach_witness :
  (0 <= 1 /\ 1e-4 <= Rabs (0 - 6) /\ 5 * 1 <= Rabs (0 - 6)) /\
  (forall x,
      solve_roa_phase_locked_physics 0 4 0 1 6 (-1) 1 1 1 = Some x
      <-> Rabs (1 - -1) > 1e-9 /\ 0 <= x <= 4 /\ 0 + 1 * x = 6 + -1 * x) /\
  (1 = -1 -> solve_roa_phase_locked_physics 0 4 0 1 6 (-1) 1 1 1 = None).
Proof.
  assert (Rabs (0 - 6) = 6) as E by (rewrite Rabs_left by lra; lra).
  assert (1e-4 <= Rabs (0 - 6)) as H1 by (rewrite E; lra).
  assert (5 * 1 <= Rabs (0 - 6)) as H2 by (rewrite E; lra).
  split; [split; [exact Rle_0_1 | split; [exact H1 | exact H2]] |].
  exact (no_bridge_beyond_reach 0 4 0 1 6 (-1) 1 1 1 Rle_0_1 H1 H2).
Defined.

(** X4.  The solver treats the two agents alike: exchanging them (positions,
    velocities and cycle indices) does not change its answer. *)
Theorem solve_symmetric (t_now leg pA vA pB vB idxA idxB radius : R) :
  solve_roa_phase_locked_physics t_now leg pB vB pA vA idxB idxA radius
  = solve_roa_phase_locked_physics t_now leg pA vA pB vB idxA idxB radius.
Proof.
  unfold solve_roa_phase_locked_physics; cbv zeta.
  rewrite (Rabs_minus_sym pB pA), (Rabs_minus_sym vB vA).
  assert (effective_radius t_now idxB idxA radius
          = effective_radius t_now idxA idxB radius) as ->
    by (unfold effective_radius, field_strength; cbv zeta;
        rewrite (Rplus_comm (get_roa_phase_intensity t_now idxB));
        reflexivity).
  destruct (Rlt_dec (Rabs (pA - pB)) 1e-4); [reflexivity |].
  destruct (Rlt_dec (Rabs (pA - pB)) _); [reflexivity |].
  destruct (Rgt_dec (Rabs (vA - vB)) 1e-9) as [Hv | _]; [| reflexivity].
  assert (vA - vB <> 0) as Hnz by (intros E; rewrite E, Rabs_R0 in Hv; lra).
  replace (- (pB - pA) / (vB - vA)) with (- (pA - pB) / (vA - vB))
    by (field; lra).
  reflexivity.
Qed.

(** X5.  The solver sees only relative positions and relative velocities:
    moving both agents by the same amount and adding the same velocity to
    both does not change its answer. *)
Theorem solve_relative
    (t_now leg pA vA pB vB idxA idxB radius shift boost : R) :
  solve_roa_phase_locked_physics t_now leg
    (pA + shift) (vA + boost) (pB + shift) (vB + boost) idxA idxB radius
  = solve_roa_phase_locked_physics t_now leg pA vA pB vB idxA idxB radius.
Proof.
  unfold solve_roa_phase_locked_physics; cbv zeta.
  replace (pA + shift - (pB + shift)) with (pA - pB) by ring.
  replace (vA + boost - (vB + boost)) with (vA - vB) by ring.
  reflexivity.
Qed.

(** ** Legs and their lengths *)

(** X6.  A constructed agent stands at its starting position on leg 0: the
    target is one unit away on the drawn side, the leg lasts one time unit
    at the velocity [+1] or [-1] drawn, the search radius is 1 and the
    cycle 1; the construction does not fail.  The starting position is an
    integer of magnitude at most [2 ^ 32], where binary64 computes the leg
    without rounding. *)
Theorem first_leg (d : Direction) (z : Z) :
  (Z.abs z <= 2 ^ 32)%Z ->
  exists a,
    new_agent d (IZR z) = Ok a /\
    origin a = IZR z /\ pos a = IZR z /\
    target a = IZR z + dir_val d /\
    duration a = 1 /\
    velocity a = dir_val d /\
    timer a = 0 /\
    cycle a = 1%nat /\
    current_search_radius a = 1.
Proof.
  intros _.
  exists (engaged d (blank_agent (IZR z))). split; [apply new_agent_ok |].
  rewrite first_leg_from.
  cbn [leg_from origin pos target duration velocity timer cycle
       current_search_radius pow].
  replace (dir_val d * 1 - 0) with (dir_val d * 1) by lra.
  rewrite Rabs_dir_val by lra.
  repeat split; try lra; reflexivity.
Qed.

Lemma first_leg_witness :
  (Z.abs 7 <= 2 ^ 32)%Z /\
  exists a,
    new_agent Minus (IZR 7) = Ok a /\
    origin a = IZR 7 /\ pos a = IZR 7 /\
    target a = IZR 7 + dir_val Minus /\
    duration a = 1 /\
    velocity a = dir_val Minus /\
    timer a = 0 /\
    cycle a = 1%nat /\
    current_search_radius a = 1.
Proof.
  assert (Z.abs 7 <= 2 ^ 32)%Z as H by (vm_compute; discriminate).
  split; [exact H |].
  exact (first_leg Minus 7 H).
Defined.

(** The leg that follows a finished leg: same side, or the other one. *)
Lemma next_leg_duration (d d0 : Direction) (a : ROAPhaseAgent) :
  on_leg a -> leg_done a ->
  target a = origin a + dir_val d0 * 2 ^ (cycle a - 1) ->
  (d = d0 ->
   Rabs (duration (engaged d a) - 2 ^ (cycle a - 1)) < 1e-9) /\
  (d <> d0 ->
   Rabs (duration (engaged d a) - 3 * 2 ^ (cycle a - 1)) < 1e-9).
Proof.
  intros Hleg Hd Ht.
  pose proof (leg_done_near_target a Hleg Hd) as Hnear.
  pose proof (leg_cycle a Hleg) as Hc.
  apply Rabs_def2 in Hnear as [Hn1 Hn2].
  cbn [engaged duration]. unfold planned_target.
  destruct (cycle a) as [| c] eqn:Ec; [lia |].
  replace (S c - 1)%nat with c in * by lia.
  pose proof (pow2_ge_1 c) as Hp.
  rewrite <- tech_pow_Rmult.
  split; intros Hdd.
  - subst d0.
    destruct d; simpl in *;
      match goal with
      | |- context [Rabs ?y / 1.0] =>
          first [rewrite (Rabs_right y) by lra | rewrite (Rabs_left y) by lra]
      end;
      apply Rabs_def1; lra.
  - destruct d, d0; try congruence; simpl in *;
      match goal with
      | |- context [Rabs ?y / 1.0] =>
          first [rewrite (Rabs_right y) by lra | rewrite (Rabs_left y) by lra]
      end;
      apply Rabs_def1; lra.
Qed.

(** X7.  In a trial whose initial separation is an integer of magnitude at
    most [2 ^ 32]: when a leg is planned after the first one, the agent's
    last target was [2 ^ (cycle - 1)] from its origin on some side; the new
    leg lasts [2 ^ (cycle - 1)] when the draw keeps that side and
    [3 * 2 ^ (cycle - 1)] when it changes side, up to the [1e-9] of the
    "Next Leg" test. *)
Theorem next_leg_lasts
    (rng : nat -> Direction) (z : Z) (a : ROAPhaseAgent) :
  (Z.abs z <= 2 ^ 32)%Z ->
  plan_site rng (IZR z) a -> (1 <= cycle a)%nat ->
  exists d0,
    target a = origin a + dir_val d0 * 2 ^ (cycle a - 1) /\
    forall d, exists a',
      engage_phase_drive d a = Ok a' /\
      (d = d0 ->
       Rabs (duration a' - 2 ^ (cycle a - 1)) < 1e-9) /\
      (d <> d0 ->
       Rabs (duration a' - 3 * 2 ^ (cycle a - 1)) < 1e-9).
Proof.
  intros _ Hsite Hc.
  pose proof (plan_site_low _ _ _ Hsite) as Hlow.
  destruct (plan_site_cases _ _ _ Hsite) as [[p ->] | [Hleg Hd]];
    [simpl in Hc; lia |].
  destruct (leg_target a Hleg) as [d0 Ht].
  exists d0. split; [assumption |].
  intros d. exists (engaged d a).
  split; [apply engage_ok; [exact Hlow | apply next_target_differs; assumption] |].
  apply next_leg_duration; assumption.
Qed.

(** ** What a trial keeps *)

Lemma unit_speed_cases (v : R) : Rabs v = 1 -> v = 1 \/ v = -1.
Proof.
  unfold Rabs. destruct (Rcase_abs v); intros H; [right | left]; lra.
Qed.

Lemma Rabs_within (x a : R) : Rabs x <= a -> - a <= x <= a.
Proof. unfold Rabs. destruct (Rcase_abs x); lra. Qed.

(** One agent through the "Update Position" and "Next Leg" lines: it keeps
    its origin and stays within its search radius. *)
Lemma replanned_range (rng : nat -> Direction) (a : ROAPhaseAgent) (k : nat)
    (dt : R) :
  on_leg a ->
  Rabs (pos a - origin a) <= current_search_radius a ->
  0 <= dt <= duration a - timer a ->
  let a' := fst (replanned rng (advance a dt) k) in
  origin a' = origin a /\
  Rabs (pos a' - origin a') <= current_search_radius a'.
Proof.
  intros Hleg Hin Hdt a'.
  assert (Rabs (pos (advance a dt) - origin a) <= current_search_radius a)
    as Hin1.
  { destruct Hleg as [Hc [d0 Ht] Hr Hs Ha Hti Hl].
    apply Rabs_within in Hin.
    pose proof (pow2_pos (cycle a - 1)) as Hp.
    cbn [advance pos]. apply Rabs_le.
    destruct (unit_speed_cases _ Hs) as [Hv | Hv]; rewrite Hv in *;
      destruct d0; simpl in Ht; lra. }
  subst a'. unfold replanned.
  destruct (leg_done_dec (advance a dt)) as [Hd | Hnd]; cbn [fst].
  - cbn [engaged origin pos current_search_radius advance cycle].
    split; [reflexivity |].
    cbn [advance pos] in Hin1.
    pose proof (leg_radius a Hleg) as Hr. pose proof (leg_cycle a Hleg) as Hc.
    assert (2 ^ (cycle a - 1) <= 2 ^ cycle a)
      by (apply Rle_pow; [lra | lia]).
    lra.
  - split; [reflexivity | exact Hin1].
Qed.

Lemma trial_reach_range (rng : nat -> Direction) (dist : R) (st : TrialState) :
  trial_reach rng dist st ->
  (origin (agent_A st) = 0.0 /\
   Rabs (pos (agent_A st) - origin (agent_A st))
   <= current_search_radius (agent_A st)) /\
  (origin (agent_B st) = dist /\
   Rabs (pos (agent_B st) - origin (agent_B st))
   <= current_search_radius (agent_B st)).
Proof.
  induction 1 as [k st Hs | st st' Hr IH _ _ Hu].
  - rewrite start_trial_ok in Hs. injection Hs as <-.
    cbn [started agent_A agent_B engaged blank_agent origin pos
         current_search_radius cycle].
    rewrite !Rminus_diag, Rabs_R0. simpl. repeat split; lra.
  - pose proof (trial_reach_inv _ _ _ Hr) as Hinv.
    pose proof (step_dt_bounds st Hinv) as (H0 & HA & HB).
    rewrite (update_state_ok rng st Hinv (trial_reach_cycles_low _ _ _ Hr))
      in Hu.
    injection Hu as <-.
    destruct IH as [[OA RA] [OB RB]].
    cbn [updated agent_A agent_B].
    assert (0 <= step_dt st <= duration (agent_A st) - timer (agent_A st))
      as HdA by lra.
    assert (0 <= step_dt st <= duration (agent_B st) - timer (agent_B st))
      as HdB by lra.
    pose proof (replanned_range rng (agent_A st) (draws st) (step_dt st)
                  (inv_A _ Hinv) RA HdA) as [OA' RA'].
    pose proof (replanned_range rng (agent_B st)
                  (snd (replanned rng (advance (agent_A st) (step_dt st))
                          (draws st)))
                  (step_dt st) (inv_B _ Hinv) RB HdB) as [OB' RB'].
    repeat split; try assumption; congruence.
Qed.

(** X8.  In a trial whose initial separation is an integer of magnitude at
    most [2 ^ 32], at every solver call each agent has kept the origin it
    was constructed at, moves at unit speed, is as far from its target as
    its leg has time left, has its target on the circle of its search
    radius [2 ^ (cycle - 1)] around the origin, and is itself within that
    radius of the origin. *)
Theorem agents_on_their_legs
    (rng : nat -> Direction) (z : Z) (st : TrialState) :
  (Z.abs z <= 2 ^ 32)%Z ->
  trial_reach rng (IZR z) st ->
  origin (agent_A st) = 0.0 /\
  origin (agent_B st) = IZR z /\
  forall a, a = agent_A st \/ a = agent_B st ->
    Rabs (velocity a) = 1 /\
    Rabs (target a - pos a) = duration a - timer a /\
    current_search_radius a = 2 ^ (cycle a - 1) /\
    Rabs (target a - origin a) = current_search_radius a /\
    Rabs (pos a - origin a) <= current_search_radius a.
Proof.
  intros _ Hr.
  destruct (trial_reach_range _ _ _ Hr) as [[OA RA] [OB RB]].
  pose proof (trial_reach_inv _ _ _ Hr) as Hinv.
  split; [assumption |]. split; [assumption |].
  intros a Ha.
  assert (on_leg a /\ Rabs (pos a - origin a) <= current_search_radius a)
    as [[Hc [d0 Ht] Hrad Hs Hah Hti Hl] Hin]
    by (destruct Ha as [-> | ->]; split; try assumption; apply Hinv).
  repeat split; try assumption.
  - rewrite Hah, Rabs_mult, Hs, Rabs_right; lra.
  - rewrite Ht, Hrad.
    replace (origin a + dir_val d0 * 2 ^ (cycle a - 1) - origin a)
      with (dir_val d0 * 2 ^ (cycle a - 1)) by ring.
    apply Rabs_dir_val. pose proof (pow2_pos (cycle a - 1)). lra.
Qed.

Lemma small_integer : (Z.abs 2 <= 2 ^ 32)%Z.
Proof. vm_compute. discriminate. Qed.

Lemma agents_on_their_legs_witness :
  ((Z.abs 2 <= 2 ^ 32)%Z /\
   trial_reach always_plus (IZR 2) (started always_plus 0 (IZR 2))) /\
  origin (agent_A (started always_plus 0 (IZR 2))) = 0.0 /\
  origin (agent_B (started always_plus 0 (IZR 2))) = IZR 2 /\
  forall a,
    a = agent_A (started always_plus 0 (IZR 2)) \/
    a = agent_B (started always_plus 0 (IZR 2)) ->
    Rabs (velocity a) = 1 /\
    Rabs (target a - pos a) = duration a - timer a /\
    current_search_radius a = 2 ^ (cycle a - 1) /\
    Rabs (target a - origin a) = current_search_radius a /\
    Rabs (pos a - origin a) <= current_search_radius a.
Proof.
  assert (trial_reach always_plus (IZR 2) (started always_plus 0 (IZR 2))) as H
    by (apply trial_started with (k := 0%nat); apply start_trial_ok).
  split; [split; [exact small_integer | exact H] |].
  exact (agents_on_their_legs always_plus 2 (started always_plus 0 (IZR 2))
           small_integer H).
Defined.

Lemma replanned_draws (rng : nat -> Direction) (a : ROAPhaseAgent) (k : nat) :
  (snd (replanned rng a k) + cycle a
   = k + cycle (fst (replanned rng a k)))%nat.
Proof.
  unfold replanned. destruct (leg_done_dec a); simpl; lia.
Qed.

(** X9.  In a trial with an initial separation of magnitude at most
    [2 ^ 32], every iteration that finds no meeting moves the clock on by
    the step [min(rem_A, rem_B)], which is at least [1e-9]; it ends the leg
    of at least one agent, no cycle counter goes down, and it draws one
    direction for each leg it plans. *)
Theorem iteration_progress
    (rng : nat -> Direction) (dist : R) (st : TrialState) :
  Rabs dist <= 2 ^ 32 ->
  trial_reach rng dist st ->
  exists st',
    update_state rng st = Ok st' /\
    global_t st' = global_t st + step_dt st /\
    1e-9 <= step_dt st /\
    (cycle (agent_A st) <= cycle (agent_A st'))%nat /\
    (cycle (agent_B st) <= cycle (agent_B st'))%nat /\
    (cycle (agent_A st) + cycle (agent_B st)
     < cycle (agent_A st') + cycle (agent_B st'))%nat /\
    (draws st' + cycle (agent_A st) + cycle (agent_B st)
     = draws st + cycle (agent_A st') + cycle (agent_B st'))%nat.
Proof.
  intros _ Hr. pose proof (trial_reach_inv _ _ _ Hr) as Hinv.
  pose proof (step_dt_bounds st Hinv) as (H0 & HA & HB).
  destruct (updated_inv rng st Hinv) as [_ Hprog].
  exists (updated rng st).
  split; [apply update_state_ok;
          [assumption | apply (trial_reach_cycles_low _ _ _ Hr)] |].
  split; [reflexivity |]. split; [assumption |].
  destruct (replanned_inv rng (agent_A st) (draws st) (global_t st) (step_dt st))
    as (_ & _ & _ & HcA & _); [apply Hinv | apply Hinv | lra |].
  destruct (replanned_inv rng (agent_B st)
              (snd (replanned rng (advance (agent_A st) (step_dt st))
                      (draws st)))
              (global_t st) (step_dt st))
    as (_ & _ & _ & HcB & _); [apply Hinv | apply Hinv | lra |].
  split; [exact (proj1 HcA) |]. split; [exact (proj1 HcB) |].
  split; [exact Hprog |].
  cbn [updated agent_A agent_B draws].
  pose proof (replanned_draws rng (advance (agent_A st) (step_dt st)) (draws st))
    as DA.
  pose proof (replanned_draws rng (advance (agent_B st) (step_dt st))
                (snd (replanned rng (advance (agent_A st) (step_dt st))
                        (draws st)))) as DB.
  cbn [advance cycle] in DA, DB. lia.
Qed.

Lemma iteration_progress_witness :
  (Rabs 2 <= 2 ^ 32 /\
   trial_reach always_plus 2 (started always_plus 0 2)) /\
  exists st',
    update_state always_plus (started always_plus 0 2) = Ok st' /\
    global_t st'
    = global_t (started always_plus 0 2) + step_dt (started always_plus 0 2) /\
    1e-9 <= step_dt (started always_plus 0 2) /\
    (cycle (agent_A (started always_plus 0 2)) <= cycle (agent_A st'))%nat /\
    (cycle (agent_B (started always_plus 0 2)) <= cycle (agent_B st'))%nat /\
    (cycle (agent_A (started always_plus 0 2))
     + cycle (agent_B (started always_plus 0 2))
     < cycle (agent_A st') + cycle (agent_B st'))%nat /\
    (draws st' + cycle (agent_A (started always_plus 0 2))
     + cycle (agent_B (started always_plus 0 2))
     = draws (started always_plus 0 2) + cycle (agent_A st')
       + cycle (agent_B st'))%nat.
Proof.
  assert (trial_reach always_plus 2 (started always_plus 0 2)) as H
    by (apply trial_started with (k := 0%nat); apply start_trial_ok).
  split; [split; [exact small_separation | exact H] |].
  exact (iteration_progress always_plus 2 (started always_plus 0 2)
           small_separation H).
Defined.

(** ** What a run returns *)

Lemma solve_not_negative (t_now leg pA vA pB vB idxA idxB radius x : R) :
  solve_roa_phase_locked_physics t_now leg pA vA pB vB idxA idxB radius
  = Some x ->
  0 <= x.
Proof.
  unfold solve_roa_phase_locked_physics; cbv zeta.
  destruct (Rlt_dec _ _); [intros [= <-]; lra |].
  destruct (Rlt_dec _ _); [intros [= <-]; lra |].
  destruct (Rgt_dec _ _); [| discriminate].
  destruct (Rle_dec 0 _) as [H0 |]; [| discriminate].
  destruct (Rle_dec _ leg); [| discriminate].
  intros [= <-]. exact H0.
Qed.

(** A trial that is at the time [global_t] cannot record an earlier time. *)
Lemma trial_loop_later (rng : nat -> Direction) :
  forall fuel st e k,
    trial_inv st ->
    trial_loop fuel rng st = Ok (e, k) ->
    global_t st <= recorded e.
Proof.
  induction fuel as [| fuel IH]; intros st e k Hinv;
    rewrite trial_loop_unfold;
    destruct (Rlt_dec (global_t st) 1000.0) as [Hlt | Hge];
    try discriminate;
    try (intros [= <- _]; simpl; lra).
  pose proof (step_dt_bounds st Hinv) as (H0 & _ & _).
  destruct (physics_check st) as [hit |] eqn:Hhit.
  - intros [= <- _]. simpl.
    apply solve_not_negative in Hhit. lra.
  - rewrite (update_state_ok rng st Hinv (clock_cycles_low st Hinv Hlt)).
    cbn [bind]. intros Hloop.
    destruct (updated_inv rng st Hinv) as [Hinv' _].
    apply IH in Hloop; [| assumption].
    cbn [updated global_t] in Hloop. lra.
Qed.

Lemma started_at_zero (rng : nat -> Direction) (k : nat) (dist : R) :
  global_t (started rng k dist) = 0.
Proof. simpl. lra. Qed.

Lemma run_trials_bounded_below (rng : nat -> Direction) (n : nat) (dist c : R) :
  (forall k e k',
      run_trial (trial_fuel + n) rng k dist = Ok (e, k') -> c <= recorded e) ->
  forall trials k,
    exists times,
      run_trials (trial_fuel + n) rng k trials dist = Ok times /\
      length times = trials /\ Forall (fun x => c <= x) times.
Proof.
  intros Hbound. induction trials as [| trials IH]; intros k.
  - exists []. auto.
  - cbn [run_trials].
    destruct (run_trial_total rng n k dist) as (e & k' & Hrun & _).
    rewrite Hrun. cbn [bind].
    destruct (IH k') as (rest & -> & Hlen & Hall). cbn [bind].
    exists (recorded e :: rest). simpl. repeat split; [lia |].
    constructor; [eapply Hbound; eassumption | assumption].
Qed.

Lemma fold_bounded_below (c : R) (l : list R) :
  Forall (fun x => c <= x) l ->
  forall a, a + INR (length l) * c <= fold_left Rplus l a.
Proof.
  induction 1 as [| x l Hx _ IH]; intros a.
  - simpl. lra.
  - cbn [fold_left length]. rewrite S_INR.
    specialize (IH (a + x)). lra.
Qed.

Lemma mean_bounded_below (c : R) (l : list R) :
  l <> [] -> Forall (fun x => c <= x) l ->
  exists m, mean l = Ok m /\ c <= m.
Proof.
  intros Hne Hall. rewrite (mean_ok l Hne). eexists. split; [reflexivity |].
  assert (0 < INR (length l)) as Hpos
    by (destruct l; [contradiction | apply lt_0_INR; simpl; lia]).
  pose proof (fold_bounded_below c l Hall 0) as Hsum.
  unfold sum_list.
  apply Rmult_le_reg_r with (r := INR (length l)); [assumption |].
  unfold Rdiv. rewrite Rmult_assoc, Rinv_l by lra. lra.
Qed.

Lemma fold_constant (c : R) (l : list R) :
  Forall (fun x => x = c) l ->
  forall a, fold_left Rplus l a = a + INR (length l) * c.
Proof.
  induction 1 as [| x l -> _ IH]; intros a.
  - simpl. lra.
  - cbn [fold_left length]. rewrite S_INR, IH. lra.
Qed.

Lemma mean_constant (c : R) (l : list R) :
  l <> [] -> Forall (fun x => x = c) l -> mean l = Ok c.
Proof.
  intros Hne Hall. rewrite (mean_ok l Hne). f_equal.
  assert (INR (length l) <> 0) as Hnz
    by (destruct l; [contradiction | apply not_0_INR; simpl; lia]).
  unfold sum_list. rewrite (fold_constant c l Hall). field. assumption.
Qed.

Lemma simulate_total
    (n : nat) (rng : nat -> Direction) (trials : nat) (dist : R) :
  exists m,
    simulate_v31_final_completion (trial_fuel + n) rng (S trials) dist = Ok m.
Proof.
  unfold simulate_v31_final_completion.
  destruct (run_trials_total rng n dist (S trials) 0) as (times & -> & Hlen).
  cbn [bind].
  rewrite mean_ok by (destruct times; [simpl in Hlen; lia | discriminate]).
  eexists. reflexivity.
Qed.

(** X10.  No trial records a negative time, and with at least one trial
    [simulate_v31_final_completion] returns a mean that is not negative. *)
Theorem mean_not_negative
    (n : nat) (rng : nat -> Direction) (trials : nat) (dist : R) :
  (1 <= trials)%nat ->
  (forall k, exists e k',
      run_trial (trial_fuel + n) rng k dist = Ok (e, k') /\ 0 <= recorded e) /\
  exists m,
    simulate_v31_final_completion (trial_fuel + n) rng trials dist = Ok m /\
    0 <= m.
Proof.
  intros Htrials.
  assert (forall k e k',
             run_trial (trial_fuel + n) rng k dist = Ok (e, k') ->
             0 <= recorded e) as Hbound.
  { intros k e k'. unfold run_trial. rewrite start_trial_ok. cbn [bind].
    intros Hloop. apply trial_loop_later in Hloop; [| apply started_inv].
    rewrite started_at_zero in Hloop. exact Hloop. }
  split.
  - intros k. destruct (run_trial_total rng n k dist) as (e & k' & Hrun & _).
    exists e, k'. split; [assumption | eapply Hbound; eassumption].
  - unfold simulate_v31_final_completion.
    destruct (run_trials_bounded_below rng n dist 0 Hbound trials 0)
      as (times & -> & Hlen & Hall).
    cbn [bind]. apply mean_bounded_below; [| assumption].
    destruct times; [simpl in Hlen; lia | discriminate].
Qed.

Lemma mean_not_negative_witness :
  (1 <= 2)%nat /\
  (forall k, exists e k',
      run_trial (trial_fuel + 0) always_plus k 2.0 = Ok (e, k') /\
      0 <= recorded e) /\
  exists m,
    simulate_v31_final_completion (trial_fuel + 0) always_plus 2 2.0 = Ok m /\
    0 <= m.
Proof.
  assert (1 <= 2)%nat as H by lia.
  split; [exact H |].
  exact (mean_not_negative 0 always_plus 2 2.0 H).
Defined.

(** X11.  The mean of no trials is a division by zero, and that is the only
    way the driver fails: with [trialCount = 0] it answers [ZeroDivide]
    (NumPy's nan), with [trialCount >= 1] it returns a mean. *)
Theorem no_trials_no_mean
    (n : nat) (rng : nat -> Direction) (trials : nat) (dist : R) :
  simulate_v31_final_completion (trial_fuel + n) rng 0 dist = ZeroDivide /\
  exists m,
    simulate_v31_final_completion (trial_fuel + n) rng (S trials) dist = Ok m.
Proof.
  split.
  - unfold simulate_v31_final_completion; cbn [run_trials bind].
    unfold mean, checked_div; simpl.
    destruct (Req_dec_T 0 0) as [_ | H]; [reflexivity | contradiction].
  - apply simulate_total.
Qed.

(** ** Near and far starts *)

Lemma sin_1_lower : 0.841 <= sin 1.
Proof.
  assert (0 <= 1) as H0 by lra.
  assert (1 <= PI) as H1 by (pose proof PI2_1; lra).
  destruct (SIN 1 H0 H1) as [Hlb _].
  unfold sin_lb, sin_approx in Hlb.
  cbn [sum_f_R0] in Hlb. unfold sin_term in Hlb.
  rewrite !pow1 in Hlb.
  rewrite !INR_IZR_INZ in Hlb.
  replace (Z.of_nat (Factorial.fact (2 * 0 + 1))) with 1%Z in Hlb by reflexivity.
  replace (Z.of_nat (Factorial.fact (2 * 1 + 1))) with 6%Z in Hlb by reflexivity.
  replace (Z.of_nat (Factorial.fact (2 * 2 + 1))) with 120%Z in Hlb by reflexivity.
  replace (Z.of_nat (Factorial.fact (2 * 3 + 1))) with 5040%Z in Hlb by reflexivity.
  simpl pow in Hlb.
  lra.
Qed.

(** The intensity that both agents have at the first solver call of a
    trial: time [0.0], cycle 1. *)
Lemma first_intensity : 1.341 <= get_roa_phase_intensity 0.0 (INR 1).
Proof.
  unfold get_roa_phase_intensity; cbv zeta.
  replace 0.0 with 0 by lra.
  unfold Rdiv. rewrite !Rmult_0_l, Rplus_0_l. simpl INR.
  rewrite cos_0. pose proof sin_1_lower.
  rewrite Rabs_right by lra. lra.
Qed.

Lemma first_effective_radius (rng : nat -> Direction) (k : nat) (dist : R) :
  let st := started rng k dist in
  4.6 < effective_radius (global_t st)
          (INR (cycle (agent_A st))) (INR (cycle (agent_B st)))
          (Rmax (current_search_radius (agent_A st))
                (current_search_radius (agent_B st))).
Proof.
  cbn [started global_t agent_A agent_B engaged cycle current_search_radius
       blank_agent].
  unfold effective_radius, field_strength; cbv zeta.
  rewrite Rmax_left by lra.
  pose proof first_intensity. simpl pow. lra.
Qed.

Lemma first_check_near (rng : nat -> Direction) (k : nat) (dist : R) :
  1e-4 <= Rabs dist <= 4.6 ->
  physics_check (started rng k dist) = Some 0.001.
Proof.
  intros [Hlo Hhi]. pose proof (first_effective_radius rng k dist) as Heff.
  cbv zeta in Heff. unfold physics_check.
  assert (Rabs (pos (agent_A (started rng k dist))
                - pos (agent_B (started rng k dist))) = Rabs dist) as E.
  { cbn [started agent_A agent_B engaged pos blank_agent].
    replace (0.0 - dist) with (- dist) by lra. apply Rabs_Ropp. }
  apply solve_field; rewrite E; lra.
Qed.

Lemma near_trial (fuel : nat) (rng : nat -> Direction) (k : nat) (dist : R) :
  1e-4 <= Rabs dist <= 4.6 ->
  exists e, run_trial (S fuel) rng k dist = Ok (e, S (S k)) /\ recorded e = 0.001.
Proof.
  intros Hd. unfold run_trial. rewrite start_trial_ok. cbn [bind].
  rewrite trial_loop_unfold.
  destruct (Rlt_dec _ _) as [_ | n]; [| exfalso; apply n; simpl; lra].
  rewrite (first_check_near rng k dist Hd).
  eexists. split; [reflexivity |]. simpl. lra.
Qed.

Lemma near_trials (fuel : nat) (rng : nat -> Direction) (dist : R) :
  1e-4 <= Rabs dist <= 4.6 ->
  forall trials k,
    exists times,
      run_trials (S fuel) rng k trials dist = Ok times /\
      length times = trials /\ Forall (fun x => x = 0.001) times.
Proof.
  intros Hd. induction trials as [| trials IH]; intros k.
  - exists []. auto.
  - cbn [run_trials].
    destruct (near_trial fuel rng k dist Hd) as (e & -> & He). cbn [bind].
    destruct (IH (S (S k))) as (rest & -> & Hlen & Hall). cbn [bind].
    exists (recorded e :: rest). simpl. auto.
Qed.

Lemma near_simulation
    (fuel : nat) (rng : nat -> Direction) (trials : nat) (dist : R) :
  1e-4 <= Rabs dist <= 4.6 ->
  (1 <= trials)%nat ->
  simulate_v31_final_completion (S fuel) rng trials dist = Ok 0.001.
Proof.
  intros Hd Htrials. unfold simulate_v31_final_completion.
  destruct (near_trials fuel rng dist Hd trials 0) as (times & -> & Hlen & Hall).
  cbn [bind]. apply mean_constant; [| assumption].
  destruct times; [simpl in Hlen; lia | discriminate].
Qed.

(** X12.  When the agents start between [1e-4] and [4.6] apart, the field
    bridges them in the first solver call of every trial, whatever the
    draws: every trial records [0.001], and with at least one trial
    [simulate_v31_final_completion] returns a mean within [1e-12] of
    [0.001]. *)
Theorem near_start_mean
    (fuel : nat) (rng : nat -> Direction) (trials : nat) (dist : R) :
  1e-4 <= Rabs dist <= 4.6 ->
  (1 <= trials)%nat ->
  (forall k, exists st,
      start_trial rng k dist = Ok st /\ physics_check st = Some 0.001) /\
  (forall k, exists e,
      run_trial (S fuel) rng k dist = Ok (e, S (S k)) /\ recorded e = 0.001) /\
  exists m,
    simulate_v31_final_completion (S fuel) rng trials dist = Ok m /\
    Rabs (m - 0.001) <= 1e-12.
Proof.
  intros Hd Htrials. split; [| split].
  - intros k. exists (started rng k dist).
    split; [apply start_trial_ok | apply first_check_near; assumption].
  - intros k. apply near_trial; assumption.
  - exists 0.001. split; [apply near_simulation; assumption |].
    rewrite Rminus_diag, Rabs_R0. lra.
Qed.

Lemma default_separation_near : 1e-4 <= Rabs 2.0 <= 4.6.
Proof. rewrite Rabs_right by lra. lra. Qed.

Lemma near_start_mean_witness :
  (1e-4 <= Rabs 2.0 <= 4.6 /\ (1 <= 1000)%nat) /\
  (forall k, exists st,
      start_trial minus_then_plus k 2.0 = Ok st /\
      physics_check st = Some 0.001) /\
  (forall k, exists e,
      run_trial 1 minus_then_plus k 2.0 = Ok (e, S (S k)) /\
      recorded e = 0.001) /\
  exists m,
    simulate_v31_final_completion 1 minus_then_plus 1000 2.0 = Ok m /\
    Rabs (m - 0.001) <= 1e-12.
Proof.
  assert (1 <= 1000)%nat as H by lia.
  split; [split; [exact default_separation_near | exact H] |].
  exact (near_start_mean 0 minus_then_plus 1000 2.0 default_separation_near H).
Defined.

(** X13.  The script's own run, 50000 trials at separation [2.0], prints
    the average time [0.001] and takes the SUCCESS branch of the comparison
    with 4.25, whatever directions the generator draws. *)
Theorem main_prints_success (fuel : nat) (rng : nat -> Direction) :
  main (S fuel) rng = Ok (0.001, Success).
Proof.
  unfold main.
  rewrite (near_simulation fuel rng (Z.to_nat 50000) 2.0
             default_separation_near) by lia.
  cbn [bind].
  destruct (Rlt_dec 0.001 4.25) as [_ | n]; [reflexivity | exfalso; lra].
Qed.

Lemma started_step_dt (rng : nat -> Direction) (k : nat) (dist : R) :
  step_dt (started rng k dist) = 1.
Proof.
  unfold step_dt; cbv zeta. cbn [started agent_A agent_B].
  rewrite !first_leg_length. cbn [engaged timer].
  unfold Rmin. destruct (Rle_dec _ _); lra.
Qed.

Lemma first_check_far (rng : nat -> Direction) (k : nat) (dist : R) :
  5 <= Rabs dist ->
  physics_check (started rng k dist) = None.
Proof.
  intros Hd.
  destruct (physics_check (started rng k dist)) as [x |] eqn:E;
    [exfalso | reflexivity].
  unfold physics_check in E. rewrite started_step_dt in E.
  pose proof (leg_speed _ (new_agent_on_leg (rng k) 0.0)) as HvA.
  pose proof (leg_speed _ (new_agent_on_leg (rng (S k)) dist)) as HvB.
  cbn [started agent_A agent_B global_t] in E.
  assert (pos (engaged (rng k) (blank_agent 0.0)) = 0) as PA by (simpl; lra).
  assert (pos (engaged (rng (S k)) (blank_agent dist)) = dist) as PB
    by reflexivity.
  assert (Rmax (current_search_radius (engaged (rng k) (blank_agent 0.0)))
               (current_search_radius (engaged (rng (S k)) (blank_agent dist)))
          = 1) as Hrad by (simpl; rewrite Rmax_left by lra; lra).
  rewrite PA, PB, Hrad in E.
  assert (Rabs (0 - dist) = Rabs dist) as Hrel
    by (replace (0 - dist) with (- dist) by lra; apply Rabs_Ropp).
  apply classical_crossing in E as (_ & Hx & Hcross).
  - destruct (unit_speed_cases _ HvA) as [HA | HA];
      destruct (unit_speed_cases _ HvB) as [HB | HB];
      rewrite HA, HB in Hcross;
      assert (- 2 <= dist <= 2) as Hsmall by lra;
      apply Rabs_le in Hsmall; lra.
  - rewrite Hrel. lra.
  - rewrite Hrel.
    pose proof (effective_radius_bounds 0.0
                  (INR (cycle (engaged (rng k) (blank_agent 0.0))))
                  (INR (cycle (engaged (rng (S k)) (blank_agent dist))))
                  1 Rle_0_1) as [_ Hhi].
    lra.
Qed.

Lemma far_trial (n : nat) (rng : nat -> Direction) (k : nat) (dist : R)
    (e : LoopExit) (k' : nat) :
  5 <= Rabs dist ->
  run_trial (trial_fuel + n) rng k dist = Ok (e, k') -> 1 <= recorded e.
Proof.
  intros Hd. unfold run_trial. rewrite start_trial_ok. cbn [bind].
  change (trial_fuel + n)%nat with (S (4001 + n)).
  rewrite trial_loop_unfold.
  destruct (Rlt_dec _ _) as [_ | Hn]; [| exfalso; apply Hn; simpl; lra].
  rewrite (first_check_far rng k dist Hd).
  pose proof (started_inv rng k dist) as Hinv.
  assert (cycles_low (started rng k dist)) as Hlow by (split; simpl; lia).
  rewrite (update_state_ok rng _ Hinv Hlow). cbn [bind]. intros Hloop.
  apply trial_loop_later in Hloop; [| apply updated_inv; assumption].
  cbn [updated global_t] in Hloop.
  rewrite started_step_dt, started_at_zero in Hloop. lra.
Qed.

(** X14.  When the agents start five or more apart, the first solver call
    of a trial finds no meeting, whatever the draws: no trial records a
    time below 1, and the mean of at least one trial is at least 1. *)
Theorem far_start_mean
    (n : nat) (rng : nat -> Direction) (trials : nat) (dist : R) :
  5 <= Rabs dist ->
  (1 <= trials)%nat ->
  (forall k, exists st,
      start_trial rng k dist = Ok st /\ physics_check st = None) /\
  (forall k, exists e k',
      run_trial (trial_fuel + n) rng k dist = Ok (e, k') /\ 1 <= recorded e) /\
  exists m,
    simulate_v31_final_completion (trial_fuel + n) rng trials dist = Ok m /\
    1 <= m.
Proof.
  intros Hd Htrials. split; [| split].
  - intros k. exists (started rng k dist).
    split; [apply start_trial_ok | apply first_check_far; assumption].
  - intros k. destruct (run_trial_total rng n k dist) as (e & k' & Hrun & _).
    exists e, k'. split; [assumption | eapply far_trial; eassumption].
  - unfold simulate_v31_final_completion.
    destruct (run_trials_bounded_below rng n dist 1) with (trials := trials)
                                                          (k := 0%nat)
      as (times & -> & Hlen & Hall).
    { intros k e k' Hrun. eapply far_trial; eassumption. }
    cbn [bind]. apply mean_bounded_below; [| assumption].
    destruct times; [simpl in Hlen; lia | discriminate].
Qed.

Lemma far_start_mean_witness :
  (5 <= Rabs (-8) /\ (1 <= 3)%nat) /\
  (forall k, exists st,
      start_trial always_plus k (-8) = Ok st /\ physics_check st = None) /\
  (forall k, exists e k',
      run_trial (trial_fuel + 0) always_plus k (-8) = Ok (e, k') /\
      1 <= recorded e) /\
  exists m,
    simulate_v31_final_completion (trial_fuel + 0) always_plus 3 (-8) = Ok m /\
    1 <= m.
Proof.
  assert (5 <= Rabs (-8)) as Hd by (rewrite Rabs_left by lra; lra).
  assert (1 <= 3)%nat as H by lia.
  split; [split; [exact Hd | exact H] |].
  exact (far_start_mean 0 always_plus 3 (-8) Hd H).
Defined.

(** ** Agents that draw alike *)

Lemma started_lockstep (rng : nat -> Direction) (k : nat) (D : R) :
  rng (S k) = rng k ->
  started rng k D = lockstep (rng k) 0 0 0 D (S (S k)).
Proof.
  intros E. unfold started, lockstep. rewrite E, !first_leg_from.
  replace 0.0 with 0 by lra. reflexivity.
Qed.

(** In lockstep the clock outruns the radius: leg [c] does not begin
    before the time [(2 ^ c - 1) / 2], so that no leg beyond the tenth
    begins before the horizon. *)
Lemma lockstep_never_meets (rng : nat -> Direction) (D : R) :
  5 * 2 ^ 10 <= D ->
  forall fuel s x t c k e k',
    trial_inv (lockstep s x t c D k) ->
    2 * Rabs x <= 2 ^ c -> 2 ^ c <= 2 * t + 1 ->
    (forall i, rng (k + 2 * i + 1)%nat = rng (k + 2 * i)%nat) ->
    trial_loop fuel rng (lockstep s x t c D k) = Ok (e, k') ->
    exists tf, e = Horizon tf.
Proof.
  intros HD. induction fuel as [| fuel IH];
    intros s x t c k e k' Hinv Hx Ht Hrng;
    destruct (Rlt_dec t 1000.0) as [Hlt | Hge];
    try (rewrite trial_loop_unfold; cbn [lockstep global_t draws];
         destruct (Rlt_dec t 1000.0) as [Hlt' | Hge']; try contradiction;
         try discriminate;
         intros [= <- _]; eexists; reflexivity).
  pose proof (pow2_pos c) as Hpos.
  assert (c <= 10)%nat as Hc.
  { destruct (le_lt_dec c 10) as [H | H]; [assumption | exfalso].
    assert (2 ^ 11 <= 2 ^ c) by (apply Rle_pow; [lra | lia]).
    simpl in *. lra. }
  assert (2 ^ c <= 2 ^ 10) as Hc10 by (apply Rle_pow; [lra | lia]).
  assert (Rabs (dir_val s * 2 ^ c) = 2 ^ c) as Habs
    by (apply Rabs_dir_val; lra).
  assert (dir_val s * 2 ^ c <> x) as Hne.
  { intros E. rewrite <- E, Habs in Hx. lra. }
  pose proof (Rabs_triang_inv (dir_val s * 2 ^ c) x) as Htri.
  rewrite Habs in Htri.
  assert (rng k = rng k) as Hk by reflexivity.
  assert (rng (S k) = rng k) as HSk.
  { specialize (Hrng 0%nat).
    replace (k + 2 * 0 + 1)%nat with (S k) in Hrng by lia.
    replace (k + 2 * 0)%nat with k in Hrng by lia. exact Hrng. }
  destruct (lockstep_loop_step rng D fuel s (rng k) x t c k
              Hinv Hne Hk HSk) as [Hstep Hinv']; [lra | assumption |].
  rewrite Hstep.
  apply IH; try assumption.
  - rewrite Habs. simpl. lra.
  - simpl. lra.
  - intros i. specialize (Hrng (S i)).
    replace (S (S k) + 2 * i + 1)%nat with (k + 2 * S i + 1)%nat by lia.
    replace (S (S k) + 2 * i)%nat with (k + 2 * S i)%nat by lia.
    exact Hrng.
Qed.

(** X15.  Two agents that start at least 5120 apart and draw the same
    direction at every leg never meet: whatever the common directions are,
    the trial runs to the horizon and records a time of at least 1000. *)
Theorem same_directions_never_meet
    (n : nat) (rng : nat -> Direction) (k : nat) (D : R) :
  5120 <= D ->
  (forall i, rng (k + 2 * i + 1)%nat = rng (k + 2 * i)%nat) ->
  exists t k',
    run_trial (trial_fuel + n) rng k D = Ok (Horizon t, k') /\
    1000.0 <= t.
Proof.
  intros HD Hrng.
  destruct (run_trial_total rng n k D) as (e & k' & Hrun & Ht).
  assert (exists tf, e = Horizon tf) as [tf ->].
  { unfold run_trial in Hrun. rewrite start_trial_ok in Hrun.
    cbn [bind] in Hrun.
    pose proof (started_inv rng k D) as Hinv.
    assert (rng (S k) = rng k) as HSk.
    { specialize (Hrng 0%nat).
      replace (k + 2 * 0 + 1)%nat with (S k) in Hrng by lia.
      replace (k + 2 * 0)%nat with k in Hrng by lia. exact Hrng. }
    rewrite (started_lockstep rng k D HSk) in Hrun, Hinv.
    apply (lockstep_never_meets rng D) in Hrun; try assumption.
    - simpl. lra.
    - rewrite Rabs_R0. simpl. lra.
    - simpl. lra.
    - intros i. specialize (Hrng (S i)).
      replace (S (S k) + 2 * i + 1)%nat with (k + 2 * S i + 1)%nat by lia.
      replace (S (S k) + 2 * i)%nat with (k + 2 * S i)%nat by lia.
      exact Hrng. }
  exists tf, k'. split; [assumption | apply Ht; reflexivity].
Qed.

Lemma same_directions_never_meet_witness :
  (5120 <= 6000 /\
   forall i, minus_then_plus (0 + 2 * i + 1)%nat = minus_then_plus (0 + 2 * i)%nat) /\
  exists t k',
    run_trial (trial_fuel + 0) minus_then_plus 0 6000 = Ok (Horizon t, k') /\
    1000.0 <= t.
Proof.
  assert (5120 <= 6000) as HD by lra.
  assert (forall i, minus_then_plus (0 + 2 * i + 1)%nat
                    = minus_then_plus (0 + 2 * i)%nat) as Hrng.
  { intros i. unfold minus_then_plus.
    destruct (Nat.ltb_spec (0 + 2 * i + 1) 20);
      destruct (Nat.ltb_spec (0 + 2 * i) 20); try reflexivity; lia. }
  split; [split; [exact HD | exact Hrng] |].
  exact (same_directions_never_meet 0 minus_then_plus 0 6000 HD Hrng).
Defined.

(** A "Next Leg" call of a trial: the end of leg 0. *)
Lemma first_next_leg_site :
  plan_site always_plus 6000
    (advance (agent_A (started always_plus 0 6000))
       (step_dt (started always_plus 0 6000))) /\
  (1 <= cycle (advance (agent_A (started always_plus 0 6000))
                 (step_dt (started always_plus 0 6000))))%nat.
Proof.
  split; [| simpl; lia].
  apply site_next_A.
  - apply trial_started with (k := 0%nat). apply start_trial_ok.
  - simpl. lra.
  - apply first_check_far. rewrite Rabs_right by lra. lra.
  - unfold leg_done. rewrite started_step_dt.
    cbn [advance duration timer started agent_A].
    rewrite first_leg_length. cbn [engaged timer].
    replace (1 - (0 + 1)) with 0 by lra. rewrite Rabs_R0. lra.
Qed.

Lemma next_leg_lasts_witness :
  exists a,
    ((Z.abs 6000 <= 2 ^ 32)%Z /\
     plan_site always_plus (IZR 6000) a /\ (1 <= cycle a)%nat) /\
    exists d0,
      target a = origin a + dir_val d0 * 2 ^ (cycle a - 1) /\
      forall d, exists a',
        engage_phase_drive d a = Ok a' /\
        (d = d0 ->
         Rabs (duration a' - 2 ^ (cycle a - 1)) < 1e-9) /\
        (d <> d0 ->
         Rabs (duration a' - 3 * 2 ^ (cycle a - 1)) < 1e-9).
Proof.
  assert (Z.abs 6000 <= 2 ^ 32)%Z as Hz by (vm_compute; discriminate).
  exists (advance (agent_A (started always_plus 0 6000))
            (step_dt (started always_plus 0 6000))).
  split; [split; [exact Hz | exact first_next_leg_site] |].
  exact (next_leg_lasts always_plus 6000 _ Hz
           (proj1 first_next_leg_site) (proj2 first_next_leg_site)).
Defined.

